(** * Conversation graph with bounded-history summarization

    A shallow embedding of [microservices/backend/graph.py] (the LangGraph
    workflow: [call_model], [should_continue], [summarize_conversation],
    [get_graph]) and of [microservices/backend/server.py] (the FastAPI
    endpoints [invoke], [stream], [get_thread_state], [delete_thread] and
    the helper [_serialize_message]).

    The repository's code sits on two external libraries. What the code
    uses of them is written out here, once, as executable definitions:
    - LangChain messages and the [add_messages] reducer of [MessagesState];
    - the LangGraph runtime behind [compiled_graph.invoke] /
      [compiled_graph.get_state], with the [MemorySaver] checkpointer.
    The language model ([model.invoke]) stays abstract: it is a variable of
    the section, a state-passing function that may fail. *)

From stdpp Require Import gmap strings list fin_maps pretty.

Open Scope string_scope.
Open Scope list_scope.

(** ** Python values at the service boundary *)

Inductive PyVal :=
| PyStr (s : string)
| PyInt (z : Z)
| PyBool (b : bool)
| PyNone.

(** [str(v)] *)
Definition py_str (v : PyVal) : string :=
  match v with
  | PyStr s => s
  | PyInt z => pretty z
  | PyBool true => "True"
  | PyBool false => "False"
  | PyNone => "None"
  end.

Inductive Exception :=
| ValueError (msg : string)
| IndexError (msg : string)
| AttributeError (msg : string)
| GraphRecursionError (msg : string)
| ModelError (msg : string).

(** [str(e)] *)
Definition exc_str (e : Exception) : string :=
  match e with
  | ValueError m | IndexError m | AttributeError m
  | GraphRecursionError m | ModelError m => m
  end.

(** ** LangChain messages *)

Inductive MessageClass := HumanMessage | AIMessage | SystemMessage | RemoveMessage.

Global Instance MessageClass_eq_dec : EqDecision MessageClass.
Proof. solve_decision. Defined.

(** [type(msg).__name__] *)
Definition class_name (c : MessageClass) : string :=
  match c with
  | HumanMessage => "HumanMessage"
  | AIMessage => "AIMessage"
  | SystemMessage => "SystemMessage"
  | RemoveMessage => "RemoveMessage"
  end.

(** A message object. Identifiers are the strings that [uuid.uuid4()]
    produces; the code only ever compares them, so the n-th identifier
    generated in a run is represented by the number n. A message built by
    the repository's code without an [id] argument has [msg_id = None]. *)
Record BaseMessage := mkMsg {
  msg_class : MessageClass;
  content : string;
  msg_id : option nat
}.

Global Instance BaseMessage_eq_dec : EqDecision BaseMessage.
Proof. solve_decision. Defined.

Definition is_remove (m : BaseMessage) : bool :=
  bool_decide (msg_class m = RemoveMessage).

(** ** The graph state: [class State(MessagesState)] *)

Record State := mkState {
  messages : list BaseMessage;
  summary : option string
}.

(** The value of a thread that has no checkpoint yet. *)
Definition empty_state : State := {| messages := []; summary := None |}.

(** A node's return value: a partial update of the state's channels. *)
Record Update := mkUpdate {
  u_messages : option (list BaseMessage);
  u_summary : option string
}.

(** The two nodes that [get_graph] adds, and the targets of its edges. *)
Inductive Node := conversation | summarize_conversation_node.
Inductive Target := Goto (n : Node) | END.

(** What a run leaves behind, in order: nodes entered, calls of the
    model with their input, and decisions of the conditional edge. *)
Inductive Event :=
| EvNode (n : Node)
| EvModel (input : list BaseMessage)
| EvRoute (t : Target).

(** ** Wire format of [server.py] *)

(** [class Message(BaseModel)] *)
Record Message := mkMessage { m_type : string; m_content : string }.

(** [class InvokeRequest(BaseModel)], with [InputPayload] inlined. The
    [config] dictionary is represented by the [thread_id] that
    [_to_graph_config] finds in it, if any. *)
Record InvokeRequest := mkRequest {
  input_messages : list Message;
  config : option string
}.

(** The request the frontend sends for a prompt: one human message and
    the thread's identifier. *)
Definition human_turn (thread_id content : string) : InvokeRequest :=
  {| input_messages := [mkMessage "human" content]; config := Some thread_id |}.

(** What [_serialize_message] is handed ([msg: Any]): an object, with
    its class name, its [content] attribute when it has one, and its
    [str()]; a [dict]; or a plain value. *)
Inductive Any :=
| AnyObject (cls : string) (attr_content : option PyVal) (text : string)
| AnyDict (d : gmap string PyVal)
| AnyValue (v : PyVal).

(** The dictionary [_serialize_message] returns. The [type] entry of a
    [dict] input is passed through as it is, so it is a Python value. *)
Record Serialized := mkSerialized { s_type : PyVal; s_content : string }.

Global Instance PyVal_eq_dec : EqDecision PyVal.
Proof. solve_decision. Defined.

Global Instance Serialized_eq_dec : EqDecision Serialized.
Proof. solve_decision. Defined.

(** [_serialize_message] *)
Definition serialize_message (msg : Any) : Serialized :=
  match msg with
  | AnyObject cls (Some c) _ =>
      if decide (cls = "AIMessage") then
        {| s_type := PyStr "ai"; s_content := py_str c |}
      else if decide (cls = "HumanMessage") then
        {| s_type := PyStr "human"; s_content := py_str c |}
      else
        {| s_type := PyStr "human"; s_content := py_str c |}
  | AnyDict d =>
      {| s_type := default (PyStr "human") (d !! "type");
         s_content := py_str (default (PyStr "") (d !! "content")) |}
  | AnyObject _ None text =>
      {| s_type := PyStr "human"; s_content := text |}
  | AnyValue v =>
      {| s_type := PyStr "human"; s_content := py_str v |}
  end.

(** [_serialize_messages] *)
Definition serialize_messages (l : list Any) : list Serialized :=
  serialize_message <$> l.

(** A LangChain message as [_serialize_message] sees it. *)
Definition as_any (m : BaseMessage) : Any :=
  AnyObject (class_name (msg_class m)) (Some (PyStr (content m))) (content m).

(** ** Start-up code and request plumbing *)

(** The start of graph.py: [api_key = os.environ.get("GOOGLE_API_KEY")]
    and the two [if not api_key:] checks that follow it, for the path
    [env_path] of the [.env] file. [python_not] is [not api_key]. *)
Definition python_not (s : option string) : bool :=
  match s with
  | Some (String _ _) => false
  | _ => true
  end.

Definition check_api_key (env_path : string) (api_key : option string)
  : Exception + option string :=
  if python_not api_key then
    inl (ValueError ("GOOGLE_API_KEY not found in " +:+ env_path +:+
                     ". Make sure the file exists and is not empty."))
  else if python_not api_key then
    inl (ValueError "GOOGLE_API_KEY not found in .env file")
  else inr api_key.

(** A resolved absolute path, as the list of its components below the
    root. [Path.parent] drops the last one, and the root is its own
    parent. *)
Definition path_parent (p : list string) : list string := removelast p.

(** What the search for graph.py at the start of server.py ends with: the
    path it will load, or [FileNotFoundError] with the path it names. *)
Inductive Located :=
| Found (graph_path : list string)
| NotFound (looked_at : list string).

(** The search itself, for the directory [here] of server.py and the
    file system's [exists]. *)
Definition locate_graph (exists_ : list string -> bool) (here : list string) : Located :=
  let repo_root := path_parent (path_parent here) in
  let graph_path := repo_root ++ ["backend"; "graph.py"] in
  let graph_path :=
    if negb (exists_ graph_path)
    then path_parent repo_root ++ ["Streamlit"; "backend"; "graph.py"]
    else graph_path in
  if negb (exists_ graph_path) then NotFound graph_path else Found graph_path.

(** JSON documents, and the Python dictionaries that hold them. *)
#[warnings="-register-all"]
Inductive Json :=
| JAtom (v : PyVal)
| JList (l : list Json)
| JDict (d : gmap string Json).

(** [_to_graph_config] *)
Definition to_graph_config (cfg : option (gmap string Json)) : gmap string Json :=
  match cfg with
  | None => ∅
  | Some c =>
      if bool_decide (size c = 0) then ∅
      else
        match c !! "thread_id" with
        | Some t => {[ "configurable" := JDict {[ "thread_id" := t ]} ]}
        | None =>
            match c !! "configurable" with
            | Some _ => c
            | None => {[ "configurable" := JDict c ]}
            end
        end
  end.

(** [config["configurable"]["thread_id"]], the entry by which the
    checkpointer picks the thread. *)
Definition configurable_thread_id (config : gmap string Json) : option Json :=
  match config !! "configurable" with
  | Some (JDict d) => d !! "thread_id"
  | _ => None
  end.

(** *** frontend/app.py *)







(** [LF] is the newline character of the summarization prompt. *)
Definition LF : string := String (Ascii.ascii_of_nat 10) "".

(** ** Stand-ins for the language model

    A model is a function from its input and its own state to a new state
    and either an error text or the text of the generated reply. These are
    the ones the examples below run the graph with. *)

(** Always the same reply. *)
Definition fixed_model (reply : string)
  : list BaseMessage -> unit -> unit * (string + string) :=
  fun _ o => (o, inr reply).

(** Always fails. *)
Definition failing_model
  : list BaseMessage -> unit -> unit * (string + string) :=
  fun _ o => (o, inl "model unavailable").

(** Replies to its n-th call with the text [marker-n]. *)
Definition marker_model
  : list BaseMessage -> nat -> nat * (string + string) :=
  fun _ n => (S n, inr ("marker-" +:+ pretty n)).

(** Answers [budget] calls, then fails. *)
Definition limited_model
  : list BaseMessage -> nat -> nat * (string + string) :=
  fun _ budget =>
    match budget with
    | O => (O, inl "model unavailable")
    | S b => (b, inr "ok")
    end.

Section Service.

(** [model = ChatGoogleGenerativeAI(...)]: the call [model.invoke]. *)
Context {ModelState : Type}.
Context (generate : list BaseMessage -> ModelState -> ModelState * (string + string)).

(** Everything a request can read or change: the storage of the shared
    [MemorySaver] (per thread, the channel values of its latest
    checkpoint), the supply of fresh identifiers, the model's own state,
    and the log of events. *)
Record World := mkWorld {
  checkpoints : gmap string State;
  uuid_next : nat;
  model_state : ModelState;
  trace : list Event
}.

(** Computations that read and change the world and may raise. What was
    changed before an exception stays changed. *)
Definition M (A : Type) : Type := World -> World * (Exception + A).

Definition ret {A} (a : A) : M A := fun w => (w, inr a).

Definition raise {A} (e : Exception) : M A := fun w => (w, inl e).

Definition bind {A B} (m : M A) (k : A -> M B) : M B :=
  fun w =>
    match m w with
    | (w', inr a) => k a w'
    | (w', inl e) => (w', inl e)
    end.

Notation "'do' x <- m ; k" := (bind m (fun x => k))
  (at level 10, x name, m at level 100, k at level 200, only parsing).

Definition log (ev : Event) : M unit :=
  fun w => (mkWorld (checkpoints w) (uuid_next w) (model_state w) (trace w ++ [ev]), inr tt).

(** [str(uuid.uuid4())]: an identifier nobody holds yet. *)
Definition uuid4 : M nat :=
  fun w => (mkWorld (checkpoints w) (S (uuid_next w)) (model_state w) (trace w), inr (uuid_next w)).

(** The checkpointer's read of the latest values of a thread. *)
Definition get_checkpoint (thread_id : string) : M (option State) :=
  fun w => (w, inr (checkpoints w !! thread_id)).

(** The checkpointer's write at the end of a step. *)
Definition put_checkpoint (thread_id : string) (st : State) : M unit :=
  fun w => (mkWorld (<[thread_id := st]> (checkpoints w)) (uuid_next w) (model_state w) (trace w), inr tt).

(** [model.invoke(messages)]: the reply is an [AIMessage] that carries the
    generated text and a fresh run identifier. *)
Definition model_invoke (msgs : list BaseMessage) : M BaseMessage :=
  do _ <- log (EvModel msgs);
  fun w =>
    match generate msgs (model_state w) with
    | (o', inl err) =>
        (mkWorld (checkpoints w) (uuid_next w) o' (trace w), inl (ModelError err))
    | (o', inr text) =>
        (mkWorld (checkpoints w) (S (uuid_next w)) o' (trace w),
         inr (mkMsg AIMessage text (Some (uuid_next w))))
    end.

(** *** The [add_messages] reducer of [MessagesState] *)

(** [if m.id is None: m.id = str(uuid.uuid4())], for each message. *)
Fixpoint assign_ids (l : list BaseMessage) : M (list BaseMessage) :=
  match l with
  | [] => ret []
  | m :: l' =>
      do m' <- match msg_id m with
               | Some _ => ret m
               | None => do i <- uuid4; ret (mkMsg (msg_class m) (content m) (Some i))
               end;
      do r <- assign_ids l';
      ret (m' :: r)
  end.

(** [merged_by_id.get(i)] for [merged_by_id = {m.id: i for i, m in
    enumerate(merged)}]: the last position that holds the identifier. *)
Fixpoint index_by_id (i : option nat) (merged : list BaseMessage) : option nat :=
  match merged with
  | [] => None
  | m :: rest =>
      match index_by_id i rest with
      | Some k => Some (S k)
      | None => if decide (msg_id m = i) then Some 0 else None
      end
  end.

(** The loop over the right-hand messages: a message whose identifier is
    already there replaces the old one, or marks it for removal when it
    is a [RemoveMessage]; a new one is appended; a [RemoveMessage] for an
    unknown identifier raises. *)
Fixpoint merge_loop (merged : list BaseMessage) (ids_to_remove : gset (option nat))
    (right : list BaseMessage)
  : Exception + (list BaseMessage * gset (option nat)) :=
  match right with
  | [] => inr (merged, ids_to_remove)
  | m :: right' =>
      match index_by_id (msg_id m) merged with
      | Some existing_idx =>
          if is_remove m then
            merge_loop merged (ids_to_remove ∪ {[msg_id m]}) right'
          else
            merge_loop (<[existing_idx := m]> merged) (ids_to_remove ∖ {[msg_id m]}) right'
      | None =>
          if is_remove m then
            inl (ValueError "Attempting to delete a message with an ID that doesn't exist")
          else
            merge_loop (merged ++ [m]) ids_to_remove right'
      end
  end.

Definition add_messages (left right : list BaseMessage) : M (list BaseMessage) :=
  do left' <- assign_ids left;
  do right' <- assign_ids right;
  match merge_loop left' ∅ right' with
  | inl e => raise e
  | inr (merged, ids_to_remove) =>
      ret (filter (fun m => msg_id m ∉ ids_to_remove) merged)
  end.

(** How the runtime applies a node's return value: [messages] goes
    through its reducer, [summary] is overwritten. A key the node did not
    return leaves its channel alone. *)
Definition apply_update (st : State) (u : Update) : M State :=
  do msgs <- match u_messages u with
             | Some new => add_messages (messages st) new
             | None => ret (messages st)
             end;
  ret {| messages := msgs;
         summary := match u_summary u with
                    | Some s => Some s
                    | None => summary st
                    end |}.

(** *** graph.py *)

(** [summary = state.get("summary", "")] followed by [if summary:] : the
    summary when there is one and it is not the empty string. *)
Definition truthy_summary (st : State) : option string :=
  match summary st with
  | Some "" => None
  | Some s => Some s
  | None => None
  end.

(** The local [messages] of [call_model]: what it hands to the model. *)
Definition call_model_input (state : State) : list BaseMessage :=
  match truthy_summary state with
  | Some s =>
      let system_message := "Summary of conversation earlier: " +:+ s in
      [mkMsg SystemMessage system_message None] ++ messages state
  | None => messages state
  end.

Definition call_model (state : State) : M Update :=
  do response <- model_invoke (call_model_input state);
  ret {| u_messages := Some [response]; u_summary := None |}.

Definition should_continue (state : State) : Target :=
  if (6 <? length (messages state))%nat then Goto summarize_conversation_node else END.

(** The local [summary_message] of [summarize_conversation]. *)
Definition summary_message (state : State) : string :=
  match truthy_summary state with
  | Some s =>
      "This is summary of the conversation to date: " +:+ s +:+ LF +:+ LF +:+
      "Extend the summary by taking into account the new messages above:"
  | None => "Create a summary of the conversation above:"
  end.

(** The local [messages] of [summarize_conversation]. *)
Definition summarize_input (state : State) : list BaseMessage :=
  messages state ++ [mkMsg HumanMessage (summary_message state) None].

(** [state["messages"][:-2]] and [[-2:]] *)
Definition all_but_last_two {A} (l : list A) : list A := take (length l - 2) l.
Definition last_two {A} (l : list A) : list A := drop (length l - 2) l.

(** [RemoveMessage(id=m.id)] *)
Definition remove_message (m : BaseMessage) : BaseMessage :=
  mkMsg RemoveMessage "" (msg_id m).

Definition summarize_conversation (state : State) : M Update :=
  do response <- model_invoke (summarize_input state);
  let delete_messages := remove_message <$> all_but_last_two (messages state) in
  ret {| u_summary := Some (content response); u_messages := Some delete_messages |}.

(** [get_graph]: START -> conversation; conversation -> [should_continue];
    summarize_conversation -> END. *)
Definition node_function (n : Node) : State -> M Update :=
  match n with
  | conversation => call_model
  | summarize_conversation_node => summarize_conversation
  end.

Definition next_node (n : Node) (st : State) : M Target :=
  match n with
  | conversation =>
      let t := should_continue st in
      do _ <- log (EvRoute t); ret t
  | summarize_conversation_node => ret END
  end.

(** *** The runtime behind [compiled_graph] *)

(** LangGraph's default [recursion_limit]. *)
Definition recursion_limit : nat := 25.

(** Running one node: the node's function is called on the current
    values and what it returns is applied to them. With
    [summarize_conversation_node] this is the compaction. *)
Definition run_node (n : Node) (st : State) : M State :=
  do _ <- log (EvNode n);
  do u <- node_function n st;
  apply_update st u.

(** One step runs a node and writes a checkpoint; then the outgoing edge
    picks the next node. *)
Fixpoint run_from (fuel : nat) (thread_id : string) (n : Node) (st : State) : M State :=
  match fuel with
  | O => raise (GraphRecursionError "Recursion limit reached without hitting a stop condition")
  | S fuel' =>
      do st' <- run_node n st;
      do _ <- put_checkpoint thread_id st';
      do t <- next_node n st';
      match t with
      | END => ret st'
      | Goto n' => run_from fuel' thread_id n' st'
      end
  end.

(** The coercion of an input dictionary [{"type": .., "content": ..}] to
    a message; it carries no [id]. *)
Definition convert_to_message (m : Message) : Exception + BaseMessage :=
  let t := m_type m in
  if decide (t = "human" ∨ t = "user") then inr (mkMsg HumanMessage (m_content m) None)
  else if decide (t = "ai" ∨ t = "assistant") then inr (mkMsg AIMessage (m_content m) None)
  else if decide (t = "system" ∨ t = "developer") then inr (mkMsg SystemMessage (m_content m) None)
  else inl (ValueError ("Unexpected message type: " +:+ t)).

Fixpoint convert_to_messages (l : list Message) : Exception + list BaseMessage :=
  match l with
  | [] => inr []
  | m :: l' =>
      match convert_to_message m with
      | inl e => inl e
      | inr b =>
          match convert_to_messages l' with
          | inl e => inl e
          | inr r => inr (b :: r)
          end
      end
  end.

Definition lift_result {A} (r : Exception + A) : M A :=
  match r with
  | inl e => raise e
  | inr a => ret a
  end.

(** [compiled_graph.invoke(input_dict, config=config)]: the input is
    merged into the thread's latest values and checkpointed, then the
    graph runs from its entry node; the return value is the final state. *)
Definition graph_invoke (input : list Message) (cfg : option string) : M State :=
  match cfg with
  | None => raise (ValueError "Checkpointer requires one or more of the following 'configurable' keys: thread_id, checkpoint_ns, checkpoint_id")
  | Some thread_id =>
      do saved <- get_checkpoint thread_id;
      do new_messages <- lift_result (convert_to_messages input);
      do st <- apply_update (default empty_state saved)
              {| u_messages := Some new_messages; u_summary := None |};
      do _ <- put_checkpoint thread_id st;
      run_from recursion_limit thread_id conversation st
  end.

(** [compiled_graph.get_state(cfg).values]: the latest values of the
    thread, an empty dictionary ([None]) when it has no checkpoint. *)
Definition graph_get_state_values (thread_id : string) : M (option State) :=
  get_checkpoint thread_id.

(** *** server.py *)

(** [HTTPException(status_code=.., detail=..)] *)
Record HTTPException := mkHTTP { status_code : nat; detail : string }.

(** The body of the [/invoke] answer. *)
Record InvokeResponse := mkResponse {
  r_messages : list Serialized;
  r_state : gmap string PyVal
}.

(** [resp.get("state", {})]: the graph's return value has the keys of
    [State], [messages] and [summary], and no key [state]. *)
Definition resp_get_state (resp : State) : gmap string PyVal := ∅.

(** [invoke] *)
Definition invoke (req : InvokeRequest) : World -> World * (HTTPException + InvokeResponse) :=
  fun w =>
    let body :=
      do resp <- graph_invoke (input_messages req) (config req);
      let messages := serialize_messages (as_any <$> messages resp) in
      ret {| r_messages := messages; r_state := resp_get_state resp |} in
    match body w with
    | (w', inr r) => (w', inr r)
    | (w', inl e) => (w', inl {| status_code := 500; detail := exc_str e |})
    end.

(** What the [/stream] generator yields: an [event:] line, then a
    [data:] line with the JSON document it carries. *)
Inductive StreamData :=
| DataMessage (node : string) (msgs : list Serialized) (state : gmap string PyVal)
| DataError (error : string).

Inductive Chunk :=
| EventLine (name : string)
| DataLine (data : StreamData).

(** [input_dict['messages'][-1]['content']], the argument of the
    generator's first [print] after the input is built. *)
Definition last_input_content (l : list Message) : Exception + string :=
  match last l with
  | Some m => inr (m_content m)
  | None => inl (IndexError "list index out of range")
  end.

(** [stream]: the chunks of its generator, in order. Its other [print]
    calls read values that are always there and are left out. *)
Definition stream (req : InvokeRequest) : World -> World * list Chunk :=
  fun w =>
    let body :=
      do _ <- lift_result (last_input_content (input_messages req));
      do resp <- graph_invoke (input_messages req) (config req);
      let messages := serialize_messages (as_any <$> messages resp) in
      ret (DataMessage "conversation" messages (resp_get_state resp)) in
    match body w with
    | (w', inr data) => (w', [EventLine "message"; DataLine data])
    | (w', inl e) => (w', [EventLine "error"; DataLine (DataError (exc_str e))])
    end.

(** The answer of [GET /threads/{thread_id}/state]. *)
Record ThreadState := mkThreadState {
  ts_messages : list Serialized;
  ts_summary : string
}.

(** [get_thread_state] *)
Definition get_thread_state (thread_id : string) : World -> World * ThreadState :=
  fun w =>
    match graph_get_state_values thread_id w with
    | (w', inr values) =>
        let messages := serialize_messages (as_any <$> from_option messages [] values) in
        (w', {| ts_messages := messages; ts_summary := default "" (values ≫= summary) |})
    | (w', inl e) => (w', {| ts_messages := []; ts_summary := "" |})
    end.

(** The server's global [memory = getattr(graph_mod, "memory", None)]:
    the [MemorySaver] object that the graph was compiled with, or [None]
    when the graph module exports no such name. *)
Inductive MemoryGlobal := MemoryNone | MemorySaverObject.

(** [MemorySaver.delete_thread(thread_id)], the method with which
    LangGraph's in-memory checkpointer erases a thread. *)
Definition MemorySaver_delete_thread (thread_id : string) : M unit :=
  fun w => (mkWorld (delete thread_id (checkpoints w)) (uuid_next w) (model_state w) (trace w), inr tt).

(** [memory.delete_state({"configurable": {"thread_id": thread_id}})].
    LangGraph's [MemorySaver] defines no attribute of that name (its
    methods are [get_tuple], [list], [put], [put_writes],
    [delete_thread], [get_next_version] and their async twins), so the
    attribute lookup raises before anything is called. *)
Definition memory_delete_state (thread_id : string) : M unit :=
  raise (AttributeError "'InMemorySaver' object has no attribute 'delete_state'").

(** [delete_thread] *)
Definition delete_thread (memory : MemoryGlobal) (thread_id : string)
  : World -> World * (HTTPException + string) :=
  fun w =>
    match memory with
    | MemoryNone =>
        (w, inl {| status_code := 500; detail := "Memory saver not available in graph module" |})
    | MemorySaverObject =>
        match memory_delete_state thread_id w with
        | (w', inr _) => (w', inr "deleted")
        | (w', inl e) => (w', inl {| status_code := 500; detail := exc_str e |})
        end
    end.

(** ** Well-formed stores *)

(** The identifiers [n], [n+1], ... given to the messages of [l] in order. *)
Fixpoint stamp (n : nat) (l : list BaseMessage) : list BaseMessage :=
  match l with
  | [] => []
  | m :: l' => mkMsg (msg_class m) (content m) (Some n) :: stamp (S n) l'
  end.

(** A stored message list: every message has an identifier, generated
    earlier, and no two messages share one. *)
Definition wf_messages (bound : nat) (l : list BaseMessage) : Prop :=
  NoDup (msg_id <$> l) ∧
  Forall (fun m => exists i, msg_id m = Some i ∧ i < bound) l.

Definition wf_world (w : World) : Prop :=
  forall thread_id st,
    checkpoints w !! thread_id = Some st -> wf_messages (uuid_next w) (messages st).

(** The world before the first request. *)
Definition initial_world (o : ModelState) : World :=
  {| checkpoints := ∅; uuid_next := 0; model_state := o; trace := [] |}.

(** ** Reading the log *)

(** A computation that adds nothing to the log. *)
Definition keeps_trace {A} (m : M A) : Prop := forall w, trace (m w).1 = trace w.

(** What a node hands to the model. *)
Definition node_input (n : Node) (st : State) : list BaseMessage :=
  match n with
  | conversation => call_model_input st
  | summarize_conversation_node => summarize_input st
  end.

(** The events of a turn: what the log gained between two worlds. *)
Definition turn_events (w w' : World) : list Event := drop (length (trace w)) (trace w').

Definition is_route (ev : Event) : bool :=
  match ev with EvRoute _ => true | _ => false end.

Definition is_compaction (ev : Event) : bool :=
  match ev with EvNode summarize_conversation_node => true | _ => false end.

(** ** Driving the service *)

(** The world after a series of turns on one thread, each a request of
    the frontend answered by [invoke]. *)
Definition after_turns (thread_id : string) (contents : list string) (w : World) : World :=
  foldl (fun w c => (invoke (human_turn thread_id c) w).1) w contents.

(** ** Across requests *)


(** The messages a thread has in the store, none when it has no state. *)
Definition stored_messages (thread_id : string) (w : World) : list BaseMessage :=
  messages (default empty_state (checkpoints w !! thread_id)).

(** A computation that touches no thread's state but [thread_id]'s. *)
Definition keeps_others {A} (thread_id : string) (m : M A) : Prop :=
  forall w other, other ≠ thread_id -> checkpoints (m w).1 !! other = checkpoints w !! other.

Definition is_model_call (ev : Event) : bool :=
  match ev with EvModel _ => true | _ => false end.

(** The length of a thread's history after one more turn of the
    frontend, from its length before. *)
Definition next_length (n : nat) : nat := if (6 <? n + 2)%nat then 2 else n + 2.

(** ** The monad *)

Lemma bind_ok {A B} (m : M A) (k : A -> M B) w w' a :
  m w = (w', inr a) -> bind m k w = k a w'.
Proof. unfold bind. intros ->. reflexivity. Qed.

Lemma bind_err {A B} (m : M A) (k : A -> M B) w w' e :
  m w = (w', inl e) -> bind m k w = (w', inl e).
Proof. unfold bind. intros ->. reflexivity. Qed.

(** ** The reducer *)

Lemma assign_ids_some l w :
  Forall (fun m => is_Some (msg_id m)) l -> assign_ids l w = (w, inr l).
Proof.
  induction 1 as [|m l [i Hi] _ IH]; [reflexivity|].
  cbn [assign_ids]. rewrite Hi.
  erewrite bind_ok by reflexivity.
  erewrite bind_ok by exact IH. reflexivity.
Qed.

Lemma assign_ids_none l : forall w,
  Forall (fun m => msg_id m = None) l ->
  assign_ids l w =
    (mkWorld (checkpoints w) (uuid_next w + length l) (model_state w) (trace w),
     inr (stamp (uuid_next w) l)).
Proof.
  induction l as [|m l IH]; intros w Hl.
  - cbn. rewrite Nat.add_0_r. destruct w; reflexivity.
  - inversion Hl as [|? ? Hm Hl']; subst.
    cbn [assign_ids]. rewrite Hm.
    erewrite bind_ok by (unfold bind, uuid4, ret; reflexivity).
    erewrite bind_ok by (apply IH; exact Hl').
    cbn. unfold ret. do 2 f_equal. lia.
Qed.

Lemma index_by_id_None i merged :
  i ∉ msg_id <$> merged -> index_by_id i merged = None.
Proof.
  induction merged as [|m rest IH]; [reflexivity|].
  cbn. intros Hn. rewrite not_elem_of_cons in Hn. destruct Hn as [Hne Hn].
  rewrite (IH Hn). destruct (decide (msg_id m = i)); congruence.
Qed.

Lemma index_by_id_Some i merged :
  i ∈ msg_id <$> merged -> exists k, index_by_id i merged = Some k.
Proof.
  induction merged as [|m rest IH]; cbn.
  - intros H. inversion H.
  - intros H. destruct (index_by_id i rest) as [k|] eqn:E; [eauto|].
    destruct (decide (msg_id m = i)); [eauto|].
    apply elem_of_cons in H as [H|H]; [congruence|].
    destruct (IH H) as [k Hk]. discriminate.
Qed.

(** New messages with identifiers nobody holds are appended, in order. *)
Lemma merge_loop_append new : forall merged rm,
  Forall (fun m => is_remove m = false) new ->
  NoDup (msg_id <$> new) ->
  (forall i, i ∈ msg_id <$> new -> i ∉ msg_id <$> merged) ->
  merge_loop merged rm new = inr (merged ++ new, rm).
Proof.
  induction new as [|m new IH]; intros merged rm Hrem Hnd Hfresh.
  - cbn. rewrite app_nil_r. reflexivity.
  - inversion Hrem as [|? ? Hm Hrem']; subst.
    cbn in Hnd. apply NoDup_cons in Hnd as [Hnotin Hnd].
    cbn [merge_loop]. rewrite index_by_id_None, Hm.
    2:{ apply Hfresh. cbn. left. }
    rewrite IH; [by rewrite <- app_assoc | done | done |].
    intros i Hi. rewrite fmap_app. cbn. rewrite elem_of_app, list_elem_of_singleton.
    intros [H|H]; [|congruence].
    revert H. apply Hfresh. cbn. by right.
Qed.

(** Removal requests for identifiers that are there only mark them. *)
Lemma merge_loop_remove sub : forall merged (rm : gset (option nat)),
  (forall m, m ∈ sub -> msg_id m ∈ msg_id <$> merged) ->
  merge_loop merged rm (remove_message <$> sub) =
    inr (merged, rm ∪ list_to_set (msg_id <$> sub)).
Proof.
  induction sub as [|m sub IH]; intros merged rm Hin.
  - cbn. by rewrite (right_id_L ∅ (∪)).
  - cbn [fmap list_fmap merge_loop]. cbn [remove_message msg_id].
    destruct (index_by_id_Some (msg_id m) merged) as [k ->].
    { apply Hin. left. }
    cbn. rewrite IH.
    + by rewrite <- (assoc_L (∪)).
    + intros m' Hm'. apply Hin. by right.
Qed.

Lemma filter_none {A} (P : A -> Prop) `{!forall x, Decision (P x)} (l : list A) :
  Forall (fun x => ¬ P x) l -> filter P l = [].
Proof.
  induction 1 as [|x l Hx _ IH]; [reflexivity|].
  by rewrite filter_cons_False.
Qed.

Lemma filter_all {A} (P : A -> Prop) `{!forall x, Decision (P x)} (l : list A) :
  Forall P l -> filter P l = l.
Proof.
  induction 1 as [|x l Hx _ IH]; [reflexivity|].
  rewrite filter_cons_True by done. by rewrite IH.
Qed.

(** Dropping the identifiers of a prefix leaves the rest of the list. *)
Lemma filter_prefix_ids (a b : list BaseMessage) :
  NoDup (msg_id <$> a ++ b) ->
  filter (fun m => msg_id m ∉ (list_to_set (msg_id <$> a) : gset (option nat))) (a ++ b) = b.
Proof.
  rewrite fmap_app. intros Hnd. apply NoDup_app in Hnd as (Ha & Hdisj & Hb).
  rewrite filter_app, filter_none, filter_all; [done | |].
  - apply Forall_forall. intros m Hm Hin.
    apply elem_of_list_to_set in Hin.
    apply (Hdisj _ Hin). apply list_elem_of_fmap. eauto.
  - apply Forall_forall. intros m Hm Hnot. apply Hnot.
    apply elem_of_list_to_set, list_elem_of_fmap. eauto.
Qed.

Lemma stamp_ids l : forall n, msg_id <$> stamp n l = Some <$> seq n (length l).
Proof. induction l as [|m l IH]; intros n; cbn; [done|]. by rewrite IH. Qed.

Lemma stamp_not_remove l : forall n,
  Forall (fun m => is_remove m = false) l ->
  Forall (fun m => is_remove m = false) (stamp n l).
Proof.
  induction l as [|m l IH]; intros n Hl; cbn; [constructor|].
  inversion Hl; subst. constructor; [done|]. by apply IH.
Qed.

Lemma stamp_length l : forall n, length (stamp n l) = length l.
Proof. induction l as [|m l IH]; intros n; cbn; [done|]. by rewrite IH. Qed.

Lemma wf_messages_ids bound l :
  wf_messages bound l -> Forall (fun m => is_Some (msg_id m)) l.
Proof.
  intros [_ H]. eapply Forall_impl; [exact H|].
  intros m (i & Hi & _). eauto.
Qed.

Lemma wf_messages_bound bound l i :
  wf_messages bound l -> Some i ∈ msg_id <$> l -> i < bound.
Proof.
  intros [_ H] Hin. apply list_elem_of_fmap in Hin as (m & Hm & Hin).
  rewrite Forall_forall in H. destruct (H m Hin) as (j & Hj & Hlt). congruence.
Qed.

(** Messages that come without identifiers are stamped and appended. *)
Lemma add_messages_new left new w :
  wf_messages (uuid_next w) left ->
  Forall (fun m => msg_id m = None) new ->
  Forall (fun m => is_remove m = false) new ->
  add_messages left new w =
    (mkWorld (checkpoints w) (uuid_next w + length new) (model_state w) (trace w),
     inr (left ++ stamp (uuid_next w) new)).
Proof.
  intros Hwf Hnone Hrem. unfold add_messages.
  erewrite bind_ok by (apply assign_ids_some; eapply wf_messages_ids; exact Hwf).
  erewrite bind_ok by (apply assign_ids_none; exact Hnone).
  rewrite merge_loop_append.
  - unfold ret. f_equal. f_equal. apply filter_all, Forall_forall.
    intros m _. apply not_elem_of_empty.
  - by apply stamp_not_remove.
  - rewrite stamp_ids. apply (NoDup_fmap_2 Some), NoDup_seq.
  - intros i. rewrite stamp_ids. intros Hi Hin.
    apply list_elem_of_fmap in Hi as (k & -> & Hk). apply elem_of_seq in Hk.
    pose proof (wf_messages_bound _ _ _ Hwf Hin). lia.
Qed.

(** A message that carries an identifier nobody holds is appended. *)
Lemma add_messages_fresh bound left m w :
  wf_messages bound left ->
  is_remove m = false ->
  (exists i, msg_id m = Some i ∧ bound <= i) ->
  add_messages left [m] w = (w, inr (left ++ [m])).
Proof.
  intros Hwf Hrem (i & Hi & Hle). unfold add_messages.
  erewrite bind_ok by (apply assign_ids_some; eapply wf_messages_ids; exact Hwf).
  erewrite bind_ok by (apply assign_ids_some; repeat constructor; rewrite Hi; eauto).
  rewrite merge_loop_append.
  - unfold ret. f_equal. f_equal. apply filter_all, Forall_forall.
    intros m' _. apply not_elem_of_empty.
  - by repeat constructor.
  - cbn. apply NoDup_singleton.
  - intros j Hj Hin. cbn in Hj. apply list_elem_of_singleton in Hj. subst j.
    rewrite Hi in Hin. pose proof (wf_messages_bound _ _ _ Hwf Hin). lia.
Qed.

Lemma take_drop_last_two {A} (l : list A) : all_but_last_two l ++ last_two l = l.
Proof. apply take_drop. Qed.

(** Removing all messages but the last two, by identifier, leaves the
    last two. *)
Lemma add_messages_remove left w :
  NoDup (msg_id <$> left) ->
  Forall (fun m => is_Some (msg_id m)) left ->
  add_messages left (remove_message <$> all_but_last_two left) w = (w, inr (last_two left)).
Proof.
  intros Hnd Hids. unfold add_messages.
  erewrite bind_ok by (apply assign_ids_some; exact Hids).
  erewrite bind_ok.
  2:{ apply assign_ids_some. apply Forall_fmap.
      eapply Forall_impl; [apply Forall_take; exact Hids|]. done. }
  rewrite merge_loop_remove.
  - unfold ret. f_equal. f_equal. rewrite (left_id_L ∅ (∪)).
    pose proof (filter_prefix_ids (all_but_last_two left) (last_two left)) as Hf.
    rewrite take_drop_last_two in Hf. by apply Hf.
  - intros m Hm. apply list_elem_of_fmap_2.
    rewrite <- (take_drop_last_two left). apply elem_of_app. by left.
Qed.

(** ** The nodes, one step at a time *)

Lemma model_invoke_ok msgs w o' text :
  generate msgs (model_state w) = (o', inr text) ->
  model_invoke msgs w =
    (mkWorld (checkpoints w) (S (uuid_next w)) o' (trace w ++ [EvModel msgs]),
     inr (mkMsg AIMessage text (Some (uuid_next w)))).
Proof. intros H. unfold model_invoke, bind, log. cbn. by rewrite H. Qed.

Lemma model_invoke_err msgs w o' err :
  generate msgs (model_state w) = (o', inl err) ->
  model_invoke msgs w =
    (mkWorld (checkpoints w) (uuid_next w) o' (trace w ++ [EvModel msgs]),
     inl (ModelError err)).
Proof. intros H. unfold model_invoke, bind, log. cbn. by rewrite H. Qed.

Lemma conversation_step st w o' text :
  wf_messages (uuid_next w) (messages st) ->
  generate (call_model_input st) (model_state w) = (o', inr text) ->
  run_node conversation st w =
    (mkWorld (checkpoints w) (S (uuid_next w)) o'
       (trace w ++ [EvNode conversation; EvModel (call_model_input st)]),
     inr {| messages := messages st ++ [mkMsg AIMessage text (Some (uuid_next w))];
            summary := summary st |}).
Proof.
  intros Hwf Hgen. unfold run_node.
  erewrite bind_ok by reflexivity. cbn [node_function]. unfold call_model.
  erewrite bind_ok.
  2:{ erewrite bind_ok by (apply model_invoke_ok; exact Hgen). reflexivity. }
  unfold apply_update. cbn [u_messages u_summary].
  erewrite bind_ok.
  2:{ eapply add_messages_fresh; [exact Hwf | done | eauto]. }
  unfold ret. cbn. by rewrite <- app_assoc.
Qed.

Lemma conversation_step_err st w o' err :
  generate (call_model_input st) (model_state w) = (o', inl err) ->
  run_node conversation st w =
    (mkWorld (checkpoints w) (uuid_next w) o'
       (trace w ++ [EvNode conversation; EvModel (call_model_input st)]),
     inl (ModelError err)).
Proof.
  intros Hgen. unfold run_node.
  erewrite bind_ok by reflexivity. cbn [node_function]. unfold call_model.
  erewrite bind_err.
  2:{ erewrite bind_err by (apply model_invoke_err; exact Hgen). reflexivity. }
  cbn. by rewrite <- app_assoc.
Qed.

Lemma compaction_step st w o' text :
  NoDup (msg_id <$> messages st) ->
  Forall (fun m => is_Some (msg_id m)) (messages st) ->
  generate (summarize_input st) (model_state w) = (o', inr text) ->
  run_node summarize_conversation_node st w =
    (mkWorld (checkpoints w) (S (uuid_next w)) o'
       (trace w ++ [EvNode summarize_conversation_node; EvModel (summarize_input st)]),
     inr {| messages := last_two (messages st); summary := Some text |}).
Proof.
  intros Hnd Hids Hgen. unfold run_node.
  erewrite bind_ok by reflexivity. cbn [node_function]. unfold summarize_conversation.
  erewrite bind_ok.
  2:{ erewrite bind_ok by (apply model_invoke_ok; exact Hgen). reflexivity. }
  unfold apply_update. cbn [u_messages u_summary content].
  erewrite bind_ok by (apply add_messages_remove; assumption).
  unfold ret. cbn. by rewrite <- app_assoc.
Qed.

Lemma compaction_step_err st w o' err :
  generate (summarize_input st) (model_state w) = (o', inl err) ->
  run_node summarize_conversation_node st w =
    (mkWorld (checkpoints w) (uuid_next w) o'
       (trace w ++ [EvNode summarize_conversation_node; EvModel (summarize_input st)]),
     inl (ModelError err)).
Proof.
  intros Hgen. unfold run_node.
  erewrite bind_ok by reflexivity. cbn [node_function]. unfold summarize_conversation.
  erewrite bind_err.
  2:{ erewrite bind_err by (apply model_invoke_err; exact Hgen). reflexivity. }
  cbn. by rewrite <- app_assoc.
Qed.

(** ** Well-formedness is kept *)

Lemma wf_messages_nil bound : wf_messages bound [].
Proof. split; [apply NoDup_nil_2 | constructor]. Qed.

Lemma wf_messages_mono bound bound' l :
  bound <= bound' -> wf_messages bound l -> wf_messages bound' l.
Proof.
  intros Hle [Hnd Hall]. split; [done|].
  eapply Forall_impl; [exact Hall|]. intros m (i & Hi & Hlt). exists i. split; [done|lia].
Qed.

Lemma wf_messages_stamp n l new :
  wf_messages n l -> wf_messages (n + length new) (l ++ stamp n new).
Proof.
  intros Hwf. split.
  - rewrite fmap_app. apply NoDup_app. split; [apply Hwf|]. split.
    + intros i Hin. rewrite stamp_ids. intros Hi.
      apply list_elem_of_fmap in Hi as (k & -> & Hk). apply elem_of_seq in Hk.
      pose proof (wf_messages_bound _ _ _ Hwf Hin). lia.
    + rewrite stamp_ids. apply (NoDup_fmap_2 Some), NoDup_seq.
  - apply Forall_app. split.
    + apply (wf_messages_mono n); [lia|done].
    + apply Forall_forall. intros m Hm.
      assert (Hid : msg_id m ∈ msg_id <$> stamp n new) by by apply list_elem_of_fmap_2.
      rewrite stamp_ids in Hid. apply list_elem_of_fmap in Hid as (k & Hk & Hin).
      apply elem_of_seq in Hin. exists k. split; [done|lia].
Qed.

Lemma stamp_wf n new : wf_messages (n + length new) (stamp n new).
Proof. apply (wf_messages_stamp n [] new), wf_messages_nil. Qed.

Lemma wf_messages_snoc n l c t :
  wf_messages n l -> wf_messages (S n) (l ++ [mkMsg c t (Some n)]).
Proof.
  intros Hwf. pose proof (wf_messages_stamp n l [mkMsg c t None] Hwf) as H.
  cbn in H. by rewrite Nat.add_1_r in H.
Qed.

Lemma wf_messages_last_two n l : wf_messages n l -> wf_messages n (last_two l).
Proof.
  intros [Hnd Hall]. split.
  - rewrite <- (take_drop_last_two l), fmap_app in Hnd.
    by apply NoDup_app in Hnd as (_ & _ & Hnd).
  - by apply Forall_drop.
Qed.

Lemma wf_world_lookup w thread_id :
  wf_world w ->
  wf_messages (uuid_next w) (messages (default empty_state (checkpoints w !! thread_id))).
Proof.
  intros Hwf. destruct (checkpoints w !! thread_id) as [st|] eqn:E; cbn.
  - by eapply Hwf.
  - apply wf_messages_nil.
Qed.

Lemma convert_to_messages_shape input : forall new,
  convert_to_messages input = inr new ->
  Forall (fun m => msg_id m = None) new ∧ Forall (fun m => is_remove m = false) new.
Proof.
  induction input as [|m input IH]; intros new; cbn.
  - intros [= <-]. split; constructor.
  - destruct (convert_to_message m) as [e|b] eqn:Eb; [done|].
    destruct (convert_to_messages input) as [e|r]; [done|].
    intros [= <-]. destruct (IH r eq_refl) as [H1 H2].
    unfold convert_to_message in Eb.
    repeat case_decide; simplify_eq; split; constructor; done.
Qed.

(** ** A whole run of the graph *)

Lemma run_from_unfold fuel thread_id n st :
  run_from (S fuel) thread_id n st =
    (do st' <- run_node n st;
     do _ <- put_checkpoint thread_id st';
     do t <- next_node n st';
     match t with
     | END => ret st'
     | Goto n' => run_from fuel thread_id n' st'
     end).
Proof. reflexivity. Qed.

(** From the entry node, with fuel for two steps or more: the reply is
    generated and appended, the conditional edge is consulted, and either
    the run ends or the compaction runs and then the run ends. *)
Lemma run_from_conversation fuel thread_id st w :
  wf_messages (uuid_next w) (messages st) ->
  run_from (S (S fuel)) thread_id conversation st w =
    let n := uuid_next w in
    let tr1 := trace w ++ [EvNode conversation; EvModel (call_model_input st)] in
    match generate (call_model_input st) (model_state w) with
    | (o1, inl err) =>
        (mkWorld (checkpoints w) n o1 tr1, inl (ModelError err))
    | (o1, inr text) =>
        let st2 := {| messages := messages st ++ [mkMsg AIMessage text (Some n)];
                      summary := summary st |} in
        if (6 <? length (messages st2))%nat then
          let tr2 := tr1 ++ [EvRoute (Goto summarize_conversation_node);
                             EvNode summarize_conversation_node;
                             EvModel (summarize_input st2)] in
          match generate (summarize_input st2) o1 with
          | (o2, inl err) =>
              (mkWorld (<[thread_id := st2]> (checkpoints w)) (S n) o2 tr2,
               inl (ModelError err))
          | (o2, inr s) =>
              let st3 := {| messages := last_two (messages st2); summary := Some s |} in
              (mkWorld (<[thread_id := st3]> (checkpoints w)) (S (S n)) o2 tr2, inr st3)
          end
        else
          (mkWorld (<[thread_id := st2]> (checkpoints w)) (S n) o1 (tr1 ++ [EvRoute END]),
           inr st2)
    end.
Proof.
  intros Hwf. rewrite run_from_unfold. cbn zeta.
  destruct (generate (call_model_input st) (model_state w)) as [o1 [err|text]] eqn:Hgen.
  { erewrite bind_err by (apply conversation_step_err; exact Hgen). reflexivity. }
  erewrite bind_ok by (apply conversation_step; eassumption).
  erewrite bind_ok by reflexivity.
  set (st2 := {| messages := _; summary := summary st |}).
  assert (Hwf2 : wf_messages (S (uuid_next w)) (messages st2)) by by apply wf_messages_snoc.
  cbn [next_node]. unfold should_continue.
  destruct (6 <? length (messages st2))%nat eqn:Hlen.
  - erewrite bind_ok by reflexivity.
    cbv beta iota. rewrite run_from_unfold.
    destruct (generate (summarize_input st2) o1) as [o2 [err|s]] eqn:Hgen2.
    + erewrite bind_err.
      2:{ rewrite (compaction_step_err st2 _ o2 err) by exact Hgen2. reflexivity. }
      cbn. by rewrite <- !app_assoc.
    + erewrite bind_ok.
      2:{ rewrite (compaction_step st2 _ o2 s); [reflexivity | apply Hwf2 | | exact Hgen2].
          eapply wf_messages_ids, Hwf2. }
      erewrite bind_ok by reflexivity.
      cbn. unfold ret. rewrite insert_insert_eq. by rewrite <- !app_assoc.
  - erewrite bind_ok by reflexivity. cbn. unfold ret. by rewrite <- !app_assoc.
Qed.

(** A whole turn, on a store whose lists are well formed and an input
    that converts. [st1] is the state once the input is merged in, [st2]
    once the reply is appended, [st3] after the compaction. *)
Lemma graph_invoke_spec w thread_id input new :
  wf_world w ->
  convert_to_messages input = inr new ->
  graph_invoke input (Some thread_id) w =
    let st0 := default empty_state (checkpoints w !! thread_id) in
    let st1 := {| messages := messages st0 ++ stamp (uuid_next w) new;
                  summary := summary st0 |} in
    let n := uuid_next w + length new in
    let tr1 := trace w ++ [EvNode conversation; EvModel (call_model_input st1)] in
    match generate (call_model_input st1) (model_state w) with
    | (o1, inl err) =>
        (mkWorld (<[thread_id := st1]> (checkpoints w)) n o1 tr1, inl (ModelError err))
    | (o1, inr text) =>
        let st2 := {| messages := messages st1 ++ [mkMsg AIMessage text (Some n)];
                      summary := summary st1 |} in
        if (6 <? length (messages st2))%nat then
          let tr2 := tr1 ++ [EvRoute (Goto summarize_conversation_node);
                             EvNode summarize_conversation_node;
                             EvModel (summarize_input st2)] in
          match generate (summarize_input st2) o1 with
          | (o2, inl err) =>
              (mkWorld (<[thread_id := st2]> (checkpoints w)) (S n) o2 tr2,
               inl (ModelError err))
          | (o2, inr s) =>
              let st3 := {| messages := last_two (messages st2); summary := Some s |} in
              (mkWorld (<[thread_id := st3]> (checkpoints w)) (S (S n)) o2 tr2, inr st3)
          end
        else
          (mkWorld (<[thread_id := st2]> (checkpoints w)) (S n) o1 (tr1 ++ [EvRoute END]),
           inr st2)
    end.
Proof.
  intros Hwf Hconv. unfold graph_invoke.
  erewrite bind_ok by reflexivity.
  rewrite Hconv. erewrite bind_ok by reflexivity.
  destruct (convert_to_messages_shape _ _ Hconv) as [Hnone Hrem].
  pose proof (wf_world_lookup w thread_id Hwf) as Hwf0.
  unfold apply_update. cbn [u_messages u_summary].
  erewrite bind_ok.
  2:{ erewrite bind_ok by (apply add_messages_new; eassumption). reflexivity. }
  erewrite bind_ok by reflexivity.
  unfold recursion_limit. rewrite run_from_conversation.
  2:{ cbn. by apply wf_messages_stamp. }
  cbn [checkpoints uuid_next model_state trace messages summary]. cbn zeta.
  destruct (generate _ (model_state w)) as [o1 [err|text]]; [reflexivity|].
  destruct (6 <? _)%nat; [|by rewrite insert_insert_eq].
  destruct (generate _ o1) as [o2 [err|s]]; by rewrite insert_insert_eq.
Qed.

Lemma wf_world_put w thread_id st n o tr :
  wf_world w -> uuid_next w <= n -> wf_messages n (messages st) ->
  wf_world (mkWorld (<[thread_id := st]> (checkpoints w)) n o tr).
Proof.
  intros Hwf Hle Hst tid' st'. cbn. rewrite lookup_insert. case_decide.
  - by intros [= <-].
  - intros Hl. eapply wf_messages_mono; [exact Hle|]. by eapply Hwf.
Qed.

Lemma wf_world_initial o : wf_world (initial_world o).
Proof. intros tid st. cbn. by rewrite lookup_empty. Qed.

(** Whatever a turn does, it leaves a well-formed store well formed. *)
Lemma wf_world_graph_invoke input cfg w :
  wf_world w -> wf_world (graph_invoke input cfg w).1.
Proof.
  intros Hwf. destruct cfg as [thread_id|]; [|done].
  destruct (convert_to_messages input) as [e|new] eqn:Hconv.
  { unfold graph_invoke. erewrite bind_ok by reflexivity.
    rewrite Hconv. by erewrite bind_err by reflexivity. }
  rewrite (graph_invoke_spec _ _ _ _ Hwf Hconv). cbn zeta.
  pose proof (wf_world_lookup w thread_id Hwf) as Hwf0.
  pose proof (wf_messages_stamp _ _ new Hwf0) as Hwf1.
  destruct (generate _ (model_state w)) as [o1 [err|text]].
  { apply wf_world_put; [done | lia | done]. }
  pose proof (wf_messages_snoc _ _ AIMessage text Hwf1) as Hwf2.
  destruct (6 <? _)%nat.
  - destruct (generate _ o1) as [o2 [err|s]]; cbn.
    + apply wf_world_put; [done | lia | done].
    + apply wf_world_put; [done | lia |]. cbn.
      apply (wf_messages_mono (S (uuid_next w + length new))); [lia|].
      by apply wf_messages_last_two.
  - apply wf_world_put; [done | lia | done].
Qed.

(** ** What a turn adds to the log, whatever its outcome *)

Lemma keeps_trace_ret {A} (a : A) : keeps_trace (ret a).
Proof. done. Qed.

Lemma keeps_trace_raise {A} e : keeps_trace (@raise A e).
Proof. done. Qed.

Lemma keeps_trace_bind {A B} (m : M A) (k : A -> M B) :
  keeps_trace m -> (forall a, keeps_trace (k a)) -> keeps_trace (bind m k).
Proof.
  intros Hm Hk w. unfold bind. specialize (Hm w).
  destruct (m w) as [w' [e|a]]; cbn in *; [done|]. by rewrite Hk.
Qed.

Lemma keeps_trace_assign_ids l : keeps_trace (assign_ids l).
Proof.
  induction l as [|m l IH]; cbn [assign_ids]; [apply keeps_trace_ret|].
  apply keeps_trace_bind.
  - destruct (msg_id m); [apply keeps_trace_ret|].
    apply keeps_trace_bind; [done|]. intros i. apply keeps_trace_ret.
  - intros m'. apply keeps_trace_bind; [exact IH|]. intros r. apply keeps_trace_ret.
Qed.

Lemma keeps_trace_add_messages left new : keeps_trace (add_messages left new).
Proof.
  unfold add_messages.
  apply keeps_trace_bind; [apply keeps_trace_assign_ids|]. intros left'.
  apply keeps_trace_bind; [apply keeps_trace_assign_ids|]. intros new'.
  destruct (merge_loop left' ∅ new') as [e|[merged rm]];
    [apply keeps_trace_raise | apply keeps_trace_ret].
Qed.

Lemma keeps_trace_apply_update st u : keeps_trace (apply_update st u).
Proof.
  unfold apply_update. apply keeps_trace_bind.
  - destruct (u_messages u); [apply keeps_trace_add_messages | apply keeps_trace_ret].
  - intros msgs. apply keeps_trace_ret.
Qed.

Lemma model_invoke_trace msgs w :
  trace (model_invoke msgs w).1 = trace w ++ [EvModel msgs].
Proof.
  unfold model_invoke, bind, log. cbn.
  by destruct (generate msgs (model_state w)) as [o [err|text]].
Qed.

Lemma run_node_trace n st w :
  trace (run_node n st w).1 = trace w ++ [EvNode n; EvModel (node_input n st)].
Proof.
  unfold run_node. erewrite bind_ok by reflexivity.
  set (w1 := mkWorld _ _ _ _).
  assert (Hnode : forall k : BaseMessage -> M Update,
            (forall r, keeps_trace (k r)) ->
            trace (bind (bind (model_invoke (node_input n st)) k) (apply_update st) w1).1
            = trace w ++ [EvNode n; EvModel (node_input n st)]).
  { intros k Hk. unfold bind at 1 2.
    pose proof (model_invoke_trace (node_input n st) w1) as Ht.
    destruct (model_invoke (node_input n st) w1) as [w2 [e|r]]; cbn in Ht |- *.
    - rewrite Ht. cbn. by rewrite <- app_assoc.
    - specialize (Hk r w2). destruct (k r w2) as [w3 [e|u]]; cbn in Hk |- *.
      + rewrite Hk, Ht. cbn. by rewrite <- app_assoc.
      + rewrite keeps_trace_apply_update, Hk, Ht. cbn. by rewrite <- app_assoc. }
  destruct n; cbn [node_function]; apply Hnode; intros r; apply keeps_trace_ret.
Qed.

Lemma turn_events_app w w' evs : trace w' = trace w ++ evs -> turn_events w w' = evs.
Proof. intros H. unfold turn_events. rewrite H. apply drop_app_length. Qed.

Lemma turn_events_mk w cp n o evs :
  turn_events w (mkWorld cp n o (trace w ++ evs)) = evs.
Proof. by apply turn_events_app. Qed.

(** The log of a run from the entry node has one of three shapes; a run
    that returns has one of the two complete ones. *)
Lemma run_from_trace fuel thread_id st w :
  let out := run_from (S (S fuel)) thread_id conversation st w in
  exists evs, trace out.1 = trace w ++ evs ∧
    ((evs = [EvNode conversation; EvModel (call_model_input st)] ∧ exists e, out.2 = inl e)
     ∨ evs = [EvNode conversation; EvModel (call_model_input st); EvRoute END]
     ∨ exists st2, evs = [EvNode conversation; EvModel (call_model_input st);
                          EvRoute (Goto summarize_conversation_node);
                          EvNode summarize_conversation_node;
                          EvModel (summarize_input st2)]).
Proof.
  cbn zeta. rewrite run_from_unfold.
  pose proof (run_node_trace conversation st w) as Ht1.
  destruct (run_node conversation st w) as [w1 [e|st2]] eqn:E1; cbn in Ht1.
  { rewrite (bind_err _ _ _ _ _ E1). eexists. split; [exact Ht1|].
    left. split; [reflexivity|]. by exists e. }
  rewrite (bind_ok _ _ _ _ _ E1).
  erewrite bind_ok by reflexivity. cbn [next_node]. unfold should_continue.
  destruct (6 <? length (messages st2))%nat.
  - erewrite bind_ok by reflexivity. cbv beta iota.
    rewrite run_from_unfold.
    set (w2 := mkWorld _ _ _ _).
    pose proof (run_node_trace summarize_conversation_node st2 w2) as Ht2.
    eexists. split; [|right; right; exists st2; reflexivity].
    destruct (run_node summarize_conversation_node st2 w2) as [w3 [e|st3]] eqn:E2; cbn in Ht2.
    + rewrite (bind_err _ _ _ _ _ E2). cbn.
      rewrite Ht2, Ht1. by rewrite <- !app_assoc.
    + rewrite (bind_ok _ _ _ _ _ E2). cbn.
      rewrite Ht2, Ht1. by rewrite <- !app_assoc.
  - erewrite bind_ok by reflexivity. cbn.
    eexists. split; [|right; left; reflexivity]. rewrite Ht1. by rewrite <- app_assoc.
Qed.

Lemma graph_invoke_trace input cfg w :
  let out := graph_invoke input cfg w in
  exists evs, trace out.1 = trace w ++ evs ∧
    (((evs = [] ∨ exists inp, evs = [EvNode conversation; EvModel inp]) ∧
      exists e, out.2 = inl e)
     ∨ (exists inp, evs = [EvNode conversation; EvModel inp; EvRoute END])
     ∨ (exists inp inp', evs = [EvNode conversation; EvModel inp;
                                EvRoute (Goto summarize_conversation_node);
                                EvNode summarize_conversation_node;
                                EvModel inp'])).
Proof.
  cbn zeta. unfold graph_invoke.
  destruct cfg as [thread_id|].
  2:{ exists []. rewrite app_nil_r. split; [done|]. left. split; [by left|]. cbn. eauto. }
  erewrite bind_ok by reflexivity.
  destruct (convert_to_messages input) as [e|new].
  { erewrite bind_err by reflexivity.
    exists []. rewrite app_nil_r. split; [done|]. left. split; [by left|]. cbn. eauto. }
  erewrite bind_ok by reflexivity.
  set (st0 := default empty_state _).
  pose proof (keeps_trace_apply_update st0
                {| u_messages := Some new; u_summary := None |} w) as Ht0.
  destruct (apply_update st0 _ w) as [w1 [e|st1]] eqn:E0; cbn in Ht0.
  { rewrite (bind_err _ _ _ _ _ E0).
    exists []. rewrite app_nil_r. split; [done|]. left. split; [by left|]. cbn. eauto. }
  rewrite (bind_ok _ _ _ _ _ E0).
  erewrite bind_ok by reflexivity.
  unfold recursion_limit.
  set (w2 := mkWorld _ _ _ _).
  destruct (run_from_trace 23 thread_id st1 w2) as (evs & Htr & Hshape).
  exists evs. split; [by rewrite Htr; cbn; rewrite Ht0|].
  destruct Hshape as [[-> He]|[->| [st2 ->]]]; [left|right; left|right; right]; eauto.
Qed.

(** ** The endpoints over the graph *)

Lemma invoke_unfold req w :
  invoke req w =
    match graph_invoke (input_messages req) (config req) w with
    | (w', inr resp) =>
        (w', inr {| r_messages := serialize_messages (as_any <$> messages resp);
                    r_state := resp_get_state resp |})
    | (w', inl e) => (w', inl {| status_code := 500; detail := exc_str e |})
    end.
Proof.
  unfold invoke, bind.
  by destruct (graph_invoke (input_messages req) (config req) w) as [w' [e|resp]].
Qed.

(** On an input that is not empty, [stream] wraps in two chunks exactly
    what [invoke] answers. *)
Lemma stream_unfold req w :
  input_messages req ≠ [] ->
  stream req w =
    match invoke req w with
    | (w', inr r) =>
        (w', [EventLine "message";
              DataLine (DataMessage "conversation" (r_messages r) (r_state r))])
    | (w', inl h) => (w', [EventLine "error"; DataLine (DataError (detail h))])
    end.
Proof.
  intros Hne. rewrite invoke_unfold. unfold stream, last_input_content.
  destruct (last (input_messages req)) as [m|] eqn:El.
  - erewrite bind_ok by reflexivity. unfold bind.
    by destruct (graph_invoke (input_messages req) (config req) w) as [w' [e|resp]].
  - by apply last_None in El.
Qed.

(** ** The claims *)

(** C1. After the model's reply is appended to the thread's messages,
    the compaction runs if and only if the list holds more than six
    messages. With six or fewer the turn ends on the spot: it returns and
    stores the state with the reply appended, whose summary is the one
    the thread had before the turn. With seven (or more) the conditional
    edge sends the run to the summarization node. *)
Theorem compaction_iff_more_than_six w thread_id input new o1 text :
  wf_world w ->
  convert_to_messages input = inr new ->
  let st0 := default empty_state (checkpoints w !! thread_id) in
  let st1 := {| messages := messages st0 ++ stamp (uuid_next w) new;
                summary := summary st0 |} in
  generate (call_model_input st1) (model_state w) = (o1, inr text) ->
  let st2 := {| messages := messages st1 ++
                  [mkMsg AIMessage text (Some (uuid_next w + length new))];
                summary := summary st1 |} in
  let out := graph_invoke input (Some thread_id) w in
  (should_continue st2 = Goto summarize_conversation_node <-> 6 < length (messages st2)) ∧
  (EvNode summarize_conversation_node ∈ turn_events w out.1 <-> 6 < length (messages st2)) ∧
  (length (messages st2) <= 6 ->
     out.2 = inr st2 ∧ checkpoints out.1 !! thread_id = Some st2 ∧
     summary st2 = summary st0) ∧
  (length (messages st2) = 7 ->
     take 4 (turn_events w out.1) =
       [EvNode conversation; EvModel (call_model_input st1);
        EvRoute (Goto summarize_conversation_node);
        EvNode summarize_conversation_node]).
Proof.
  intros Hwf Hconv st0 st1 Hgen st2 out.
  assert (Hroute : should_continue st2 = Goto summarize_conversation_node
                   <-> 6 < length (messages st2)).
  { unfold should_continue. destruct (6 <? length (messages st2))%nat eqn:E.
    - apply Nat.ltb_lt in E. done.
    - apply Nat.ltb_ge in E. split; [done|lia]. }
  split; [exact Hroute|].
  subst out. rewrite (graph_invoke_spec _ _ _ _ Hwf Hconv). cbn zeta.
  fold st0. fold st1. rewrite Hgen. fold st2.
  destruct (6 <? length (messages st2))%nat eqn:E.
  - apply Nat.ltb_lt in E.
    destruct (generate (summarize_input st2) o1) as [o2 [err|s]]; cbn [fst snd];
      rewrite <- app_assoc, turn_events_mk; cbn [app];
      (split; [|split; [lia|done]]); (split; [done|]); intros _;
      do 3 apply list_elem_of_further; apply list_elem_of_here.
  - apply Nat.ltb_ge in E. cbn [fst snd].
    rewrite <- app_assoc, turn_events_mk. cbn [app].
    split; [|split; [|lia]].
    + split; [|lia]. intros Hin.
      repeat (apply elem_of_cons in Hin as [Hin|Hin]; [discriminate|]).
      by apply elem_of_nil in Hin.
    + intros _. cbn. by rewrite lookup_insert_eq.
Qed.

(** C2. A compaction of a message list whose identifiers are pairwise
    distinct (as they are in every stored list) leaves exactly the last
    two messages of that list: the new [messages] is the old list's last
    two elements, it has two elements when the old list had at least two,
    and no earlier message is left in it. *)
Theorem compaction_keeps_last_two st w o' text :
  NoDup (msg_id <$> messages st) ->
  Forall (fun m => is_Some (msg_id m)) (messages st) ->
  generate (summarize_input st) (model_state w) = (o', inr text) ->
  exists w' st',
    run_node summarize_conversation_node st w = (w', inr st') ∧
    messages st' = last_two (messages st) ∧
    (2 <= length (messages st) -> length (messages st') = 2) ∧
    (forall m, m ∈ all_but_last_two (messages st) -> m ∉ messages st').
Proof.
  intros Hnd Hids Hgen. do 2 eexists.
  split; [by apply compaction_step|]. cbn [messages].
  split; [done|]. split.
  - intros Hlen. unfold last_two. rewrite length_drop. lia.
  - intros m Hm Hm'.
    rewrite <- (take_drop_last_two (messages st)), fmap_app in Hnd.
    apply NoDup_app in Hnd as (_ & Hdisj & _).
    apply (Hdisj (msg_id m)); by apply list_elem_of_fmap_2.
Qed.

(** C3. A compaction sets [summary] to the text the model returned for
    this compaction, whatever the summary was before (absent, empty, or
    the output of any earlier compactions): the old summary is replaced,
    nothing of it is kept in the field. *)
Theorem compaction_replaces_summary st w o' text :
  NoDup (msg_id <$> messages st) ->
  Forall (fun m => is_Some (msg_id m)) (messages st) ->
  generate (summarize_input st) (model_state w) = (o', inr text) ->
  exists w' st',
    run_node summarize_conversation_node st w = (w', inr st') ∧
    summary st' = Some text.
Proof.
  intros Hnd Hids Hgen. do 2 eexists.
  split; [by apply compaction_step|]. done.
Qed.

(** C4, as the code has it. A turn in which a call of the model fails
    does fail as a whole, with status 500 and the error's text, but the
    thread's stored state is not the one from before the turn: it is the
    last checkpoint written before the failing call. When the reply call
    fails, that is the old messages with the turn's input messages
    appended (and the old summary); when the reply call succeeds and the
    compaction's call fails, it also holds the reply. The turn returns
    normally in every other case. *)
Theorem model_failure_keeps_last_checkpoint w thread_id input new :
  wf_world w ->
  convert_to_messages input = inr new ->
  let st0 := default empty_state (checkpoints w !! thread_id) in
  let st1 := {| messages := messages st0 ++ stamp (uuid_next w) new;
                summary := summary st0 |} in
  let out := invoke {| input_messages := input; config := Some thread_id |} w in
  match generate (call_model_input st1) (model_state w) with
  | (_, inl err) =>
      out.2 = inl {| status_code := 500; detail := err |} ∧
      checkpoints out.1 = <[thread_id := st1]> (checkpoints w)
  | (o1, inr text) =>
      let st2 := {| messages := messages st1 ++
                      [mkMsg AIMessage text (Some (uuid_next w + length new))];
                    summary := summary st0 |} in
      if (6 <? length (messages st2))%nat then
        match generate (summarize_input st2) o1 with
        | (_, inl err) =>
            out.2 = inl {| status_code := 500; detail := err |} ∧
            checkpoints out.1 = <[thread_id := st2]> (checkpoints w)
        | (_, inr _) => exists r, out.2 = inr r
        end
      else exists r, out.2 = inr r
  end.
Proof.
  intros Hwf Hconv st0 st1 out. subst out.
  rewrite invoke_unfold. cbn [input_messages config].
  rewrite (graph_invoke_spec _ _ _ _ Hwf Hconv). cbn zeta. fold st0. fold st1.
  destruct (generate (call_model_input st1) (model_state w)) as [o1 [err|text]]; [done|].
  cbn [summary].
  destruct (6 <? _)%nat; [|cbn; eauto].
  destruct (generate _ o1) as [o2 [err|s]]; [done|cbn; eauto].
Qed.

(** C5. What [call_model] sends to the model: with a summary present
    (a non-empty text) one synthesized system message, [Summary of
    conversation earlier: ] followed by the summary, and then all of
    [messages]; with no summary (or an empty one) [messages] as it is.
    That is the input of the one call the node makes. What the node
    stores is the old messages with the reply appended: the synthesized
    message is not among them. *)
Theorem call_model_input_and_store st w o' text :
  wf_messages (uuid_next w) (messages st) ->
  generate (call_model_input st) (model_state w) = (o', inr text) ->
  call_model_input st =
    match summary st with
    | Some s =>
        if decide (s = "") then messages st
        else mkMsg SystemMessage ("Summary of conversation earlier: " +:+ s) None
               :: messages st
    | None => messages st
    end ∧
  exists w' st',
    run_node conversation st w = (w', inr st') ∧
    turn_events w w' = [EvNode conversation; EvModel (call_model_input st)] ∧
    messages st' = messages st ++ [mkMsg AIMessage text (Some (uuid_next w))] ∧
    summary st' = summary st ∧
    (forall s, mkMsg SystemMessage ("Summary of conversation earlier: " +:+ s) None
               ∉ messages st').
Proof.
  intros Hwf Hgen. split.
  - unfold call_model_input, truthy_summary.
    destruct (summary st) as [[|a s]|]; [done| |done].
    by destruct (decide _).
  - do 2 eexists. split; [by apply conversation_step|].
    split; [apply turn_events_mk|].
    cbn [messages summary]. split; [done|]. split; [done|].
    intros s Hin. apply elem_of_app in Hin as [Hin|Hin].
    + destruct Hwf as [_ Hall]. rewrite Forall_forall in Hall.
      destruct (Hall _ Hin) as (i & Hi & _). discriminate.
    + apply list_elem_of_singleton in Hin. discriminate.
Qed.

(** C6. In every turn, whatever its input and outcome, the conditional
    edge [should_continue] is evaluated at most once and the compaction
    node runs at most once. A turn that returns evaluated it exactly
    once. The evaluation comes right after the conversation node's call
    of the model, and when a compaction follows, nothing is evaluated
    after it. *)
Theorem one_compaction_per_turn input cfg w :
  let out := graph_invoke input cfg w in
  let evs := turn_events w out.1 in
  trace out.1 = trace w ++ evs ∧
  length (List.filter is_route evs) <= 1 ∧
  length (List.filter is_compaction evs) <= 1 ∧
  ((exists st, out.2 = inr st) -> length (List.filter is_route evs) = 1) ∧
  (forall i t, evs !! i = Some (EvRoute t) ->
     i = 2 ∧ exists inp, take 2 evs = [EvNode conversation; EvModel inp]) ∧
  (forall i, evs !! i = Some (EvNode summarize_conversation_node) ->
     i = 3 ∧ List.filter is_route (drop i evs) = []).
Proof.
  cbn zeta. destruct (graph_invoke_trace input cfg w) as (evs & Htr & Hshape).
  cbn zeta in Htr. rewrite (turn_events_app _ _ _ Htr). split; [done|].
  destruct Hshape as [[[->|[inp ->]] [e He]]|[[inp ->]|(inp & inp' & ->)]]; cbn.
  - repeat split; try lia; try done. intros [st Hst]. congruence.
  - repeat split; try lia.
    + intros [st Hst]. congruence.
    + by destruct i as [|[|[|]]].
    + destruct i as [|[|[|]]]; naive_solver.
    + by destruct i as [|[|[|]]].
    + by destruct i as [|[|[|]]].
  - repeat split; try lia.
    + by destruct i as [|[|[|[|]]]].
    + destruct i as [|[|[|[|]]]]; naive_solver.
    + by destruct i as [|[|[|[|]]]].
    + by destruct i as [|[|[|[|]]]].
  - repeat split; try lia.
    + by destruct i as [|[|[|[|[|[|]]]]]].
    + destruct i as [|[|[|[|[|[|]]]]]]; naive_solver.
    + by destruct i as [|[|[|[|[|[|]]]]]].
    + by destruct i as [|[|[|[|[|[|]]]]]].
Qed.

(** C7. For a thread that has no stored state, [get_thread_state]
    answers [{messages: [], summary: ""}] and changes nothing; the
    endpoint has no failing outcome at all. *)
Theorem get_thread_state_unknown thread_id w :
  checkpoints w !! thread_id = None ->
  get_thread_state thread_id w = (w, {| ts_messages := []; ts_summary := "" |}).
Proof.
  intros Hnone. unfold get_thread_state, graph_get_state_values, get_checkpoint.
  by rewrite Hnone.
Qed.

(** [delete_thread] with the saver in place: the lookup of
    [delete_state] raises, the handler turns that into a 500, and the
    store is as it was. *)
Lemma delete_thread_wired thread_id w :
  delete_thread MemorySaverObject thread_id w =
    (w, inl {| status_code := 500;
               detail := "'InMemorySaver' object has no attribute 'delete_state'" |}).
Proof. reflexivity. Qed.

Lemma delete_thread_unwired thread_id w :
  delete_thread MemoryNone thread_id w =
    (w, inl {| status_code := 500;
               detail := "Memory saver not available in graph module" |}).
Proof. reflexivity. Qed.

(** The saver's own [delete_thread] method does erase a thread: after
    it, [get_thread_state] answers the empty state. *)
Lemma MemorySaver_delete_thread_erases thread_id w :
  (get_thread_state thread_id (MemorySaver_delete_thread thread_id w).1).2 =
    {| ts_messages := []; ts_summary := "" |}.
Proof.
  unfold get_thread_state, graph_get_state_values, get_checkpoint. cbn.
  by rewrite lookup_delete_eq.
Qed.

Lemma wf_world_invoke req w : wf_world w -> wf_world (invoke req w).1.
Proof.
  intros Hwf. rewrite invoke_unfold.
  pose proof (wf_world_graph_invoke (input_messages req) (config req) w Hwf) as H.
  by destruct (graph_invoke (input_messages req) (config req) w) as [w' [e|resp]].
Qed.


(** C10, as the code has it. [_serialize_message] is total. An object
    with a [content] attribute becomes type [ai] exactly when its class is
    [AIMessage] and type [human] otherwise, system messages included; a
    mapping keeps its own [type] entry, [human] when it has none, with its
    content turned into text; anything else becomes type [human] with its
    text. Type [system] is therefore never produced for an object or a
    plain value, but a mapping whose [type] entry is [system] keeps it. *)
Theorem serialize_message_cases msg :
  match msg with
  | AnyObject cls (Some c) _ =>
      serialize_message msg =
        {| s_type := PyStr (if decide (cls = "AIMessage") then "ai" else "human");
           s_content := py_str c |}
  | AnyObject _ None text =>
      serialize_message msg = {| s_type := PyStr "human"; s_content := text |}
  | AnyDict d =>
      serialize_message msg =
        {| s_type := default (PyStr "human") (d !! "type");
           s_content := py_str (default (PyStr "") (d !! "content")) |}
  | AnyValue v =>
      serialize_message msg = {| s_type := PyStr "human"; s_content := py_str v |}
  end ∧
  (s_type (serialize_message msg) = PyStr "system" ->
   exists d, msg = AnyDict d ∧ d !! "type" = Some (PyStr "system")) ∧
  (forall m : BaseMessage,
     s_type (serialize_message (as_any m)) =
       PyStr (if decide (msg_class m = AIMessage) then "ai" else "human") ∧
     s_content (serialize_message (as_any m)) = content m).
Proof.
  split; [|split].
  - destruct msg as [cls [c|] text|d|v]; cbn; [|done..].
    by repeat case_decide.
  - destruct msg as [cls [c|] text|d|v]; cbn.
    + by repeat case_decide.
    + done.
    + intros Hd. exists d. split; [done|].
      by destruct (d !! "type") as [t|]; cbn in Hd; subst.
    + done.
  - intros [[] c i]; by cbn.
Qed.

(** ** More of the code *)

(** *** Start-up *)

Lemma string_length_app (s1 s2 : string) :
  String.length (s1 +:+ s2) = String.length s1 + String.length s2.
Proof. induction s1 as [|a s1 IH]; [done|]. simpl. by f_equal. Qed.

Lemma first_message_is_not_second env_path :
  ValueError ("GOOGLE_API_KEY not found in " +:+ env_path +:+
              ". Make sure the file exists and is not empty.")
  ≠ ValueError "GOOGLE_API_KEY not found in .env file".
Proof.
  intros [= H]. apply (f_equal String.length) in H.
  rewrite !string_length_app in H. cbn in H. lia.
Qed.

(** X1. The start of graph.py lets the module load exactly when the
    key is a non-empty string, and when it does not, the error is always
    the one that names the path of the [.env] file: the second check,
    with its message [GOOGLE_API_KEY not found in .env file], can never
    fire. *)
Theorem check_api_key_first_check_decides env_path api_key :
  (forall k, check_api_key env_path api_key = inr k <->
             k = api_key ∧ exists a s, api_key = Some (String a s)) ∧
  (forall e, check_api_key env_path api_key = inl e <->
             (api_key = None ∨ api_key = Some "") ∧
             e = ValueError ("GOOGLE_API_KEY not found in " +:+ env_path +:+
                             ". Make sure the file exists and is not empty.")) ∧
  check_api_key env_path api_key ≠ inl (ValueError "GOOGLE_API_KEY not found in .env file").
Proof.
  unfold check_api_key.
  destruct api_key as [[|a s]|]; cbn [python_not].
  - split; [|split].
    + intros k. split; [done | by intros (_ & a & s & ?)].
    + intros e. split; [intros [= <-]; split; [by right|done] | by intros (_ & ->)].
    + intros H. apply (first_message_is_not_second env_path). congruence.
  - split; [|split]; [ | |done].
    + intros k. split; [intros [= <-]; eauto | by intros (-> & _)].
    + intros e. split; [done | by intros ([?|?] & _)].
  - split; [|split].
    + intros k. split; [done | by intros (_ & a & s & ?)].
    + intros e. split; [intros [= <-]; split; [by left|done] | by intros (_ & ->)].
    + intros H. apply (first_message_is_not_second env_path). congruence.
Qed.

Lemma length_path_parent p : length (path_parent p) = pred (length p).
Proof.
  unfold path_parent. induction p as [|a [|b p] IH]; [done..|].
  cbn [removelast length] in *. by rewrite IH.
Qed.

(** X2. Whatever the file system holds, the graph.py that server.py
    loads is never the one in its own directory, as long as that
    directory lies three levels or more below the root: both places it
    tries are as deep as the directory itself, one level above the
    sibling file. *)
Theorem locate_graph_never_sibling exists_ here p :
  3 <= length here ->
  locate_graph exists_ here = Found p ->
  p ≠ here ++ ["graph.py"].
Proof.
  intros Hlen Hfound Heq.
  assert (Hp : length p = length here).
  { unfold locate_graph in Hfound.
    destruct (exists_ (path_parent (path_parent here) ++ ["backend"; "graph.py"])) eqn:E1;
      cbn [negb] in Hfound.
    - rewrite E1 in Hfound. injection Hfound as <-.
      rewrite length_app, !length_path_parent. cbn. lia.
    - destruct (exists_ _) in Hfound; [|done].
      injection Hfound as <-. rewrite length_app, !length_path_parent. cbn. lia. }
  rewrite Heq, length_app in Hp. cbn in Hp. lia.
Qed.

(** X3. When the directory two levels above server.py's is called
    [Streamlit], the fallback location is the first location again, so
    the search comes down to one test of one path. *)
Theorem locate_graph_streamlit_fallback exists_ root x y :
  locate_graph exists_ (root ++ ["Streamlit"; x; y]) =
    if exists_ (root ++ ["Streamlit"; "backend"; "graph.py"])
    then Found (root ++ ["Streamlit"; "backend"; "graph.py"])
    else NotFound (root ++ ["Streamlit"; "backend"; "graph.py"]).
Proof.
  unfold locate_graph, path_parent.
  replace (root ++ ["Streamlit"; x; y]) with ((root ++ ["Streamlit"; x]) ++ [y])
    by by rewrite <- app_assoc.
  rewrite removelast_last.
  replace (root ++ ["Streamlit"; x]) with ((root ++ ["Streamlit"]) ++ [x])
    by by rewrite <- app_assoc.
  rewrite !removelast_last, <- !app_assoc. cbn [app].
  by destruct (exists_ (root ++ ["Streamlit"; "backend"; "graph.py"])) eqn:E; cbn; rewrite ?E.
Qed.

(** *** [_to_graph_config] *)

(** X4. [_to_graph_config] is idempotent: its result is already in the
    shape it produces. *)
Theorem to_graph_config_idempotent cfg :
  to_graph_config (Some (to_graph_config cfg)) = to_graph_config cfg.
Proof.
  assert (Hsingle : forall j : Json,
            to_graph_config (Some {[ "configurable" := j ]}) = {[ "configurable" := j ]}).
  { intros j. unfold to_graph_config.
    rewrite map_size_singleton, lookup_singleton_ne by done.
    by rewrite lookup_singleton_eq. }
  destruct cfg as [c|]; [|reflexivity].
  destruct (decide (size c = 0)) as [Hz|Hnz].
  { apply map_size_empty_iff in Hz. subst c. reflexivity. }
  assert (Hc' : to_graph_config (Some c) =
                match c !! "thread_id" with
                | Some t => {[ "configurable" := JDict {[ "thread_id" := t ]} ]}
                | None => match c !! "configurable" with
                          | Some _ => c
                          | None => {[ "configurable" := JDict c ]}
                          end
                end).
  { unfold to_graph_config. by rewrite bool_decide_eq_false_2. }
  destruct (c !! "thread_id") as [t|] eqn:Ht; [rewrite Hc'; apply Hsingle|].
  destruct (c !! "configurable") as [j|] eqn:Hcf; [|rewrite Hc'; apply Hsingle].
  by rewrite !Hc'.
Qed.

(** X5. Which thread a request's config addresses: its top-level
    [thread_id] when it has one, and then nothing else of the config
    survives, not even a [configurable] entry; otherwise the [thread_id]
    inside its [configurable] dictionary; in every other case none. A
    request without a config addresses no thread. *)
Theorem to_graph_config_thread_id c :
  configurable_thread_id (to_graph_config (Some c)) =
    match c !! "thread_id" with
    | Some t => Some t
    | None =>
        match c !! "configurable" with
        | Some (JDict d) => d !! "thread_id"
        | _ => None
        end
    end ∧
  (forall t, c !! "thread_id" = Some t ->
     to_graph_config (Some c) = {[ "configurable" := JDict {[ "thread_id" := t ]} ]}) ∧
  configurable_thread_id (to_graph_config None) = None.
Proof.
  split; [|split; [|done]].
  - unfold to_graph_config. case_bool_decide as Hsize.
    + apply map_size_empty_iff in Hsize. subst c.
      by rewrite !lookup_empty.
    + destruct (c !! "thread_id") as [t|] eqn:Ht.
      * unfold configurable_thread_id.
        by rewrite lookup_singleton_eq, lookup_singleton_eq.
      * destruct (c !! "configurable") as [j|] eqn:Hc.
        -- unfold configurable_thread_id. by rewrite Hc.
        -- unfold configurable_thread_id. by rewrite lookup_singleton_eq.
  - intros t Ht. unfold to_graph_config.
    rewrite bool_decide_eq_false_2, Ht; [done|].
    intros Hsize. apply map_size_empty_iff in Hsize. subst c.
    by rewrite lookup_empty in Ht.
Qed.

(** *** Threads do not touch each other *)

Lemma keeps_others_ret {A} thread_id (a : A) : keeps_others thread_id (ret a).
Proof. done. Qed.

Lemma keeps_others_raise {A} thread_id e : keeps_others thread_id (@raise A e).
Proof. done. Qed.

Lemma keeps_others_bind {A B} thread_id (m : M A) (k : A -> M B) :
  keeps_others thread_id m -> (forall a, keeps_others thread_id (k a)) ->
  keeps_others thread_id (bind m k).
Proof.
  intros Hm Hk w other Hne. unfold bind. specialize (Hm w other Hne).
  destruct (m w) as [w' [e|a]]; cbn in *; [done|]. by rewrite Hk.
Qed.

Lemma keeps_others_model_invoke thread_id msgs : keeps_others thread_id (model_invoke msgs).
Proof.
  intros w other _. unfold model_invoke, bind, log. cbn.
  by destruct (generate msgs (model_state w)) as [o [err|text]].
Qed.

Lemma keeps_others_assign_ids thread_id l : keeps_others thread_id (assign_ids l).
Proof.
  induction l as [|m l IH]; cbn [assign_ids]; [apply keeps_others_ret|].
  apply keeps_others_bind.
  - destruct (msg_id m); [apply keeps_others_ret|].
    apply keeps_others_bind; [done|]. intros i. apply keeps_others_ret.
  - intros m'. apply keeps_others_bind; [exact IH|]. intros r. apply keeps_others_ret.
Qed.

Lemma keeps_others_apply_update thread_id st u : keeps_others thread_id (apply_update st u).
Proof.
  unfold apply_update. apply keeps_others_bind; [|intros; apply keeps_others_ret].
  destruct (u_messages u) as [new|]; [|apply keeps_others_ret].
  unfold add_messages.
  apply keeps_others_bind; [apply keeps_others_assign_ids|]. intros left'.
  apply keeps_others_bind; [apply keeps_others_assign_ids|]. intros new'.
  destruct (merge_loop left' ∅ new') as [e|[merged rm]];
    [apply keeps_others_raise | apply keeps_others_ret].
Qed.

Lemma keeps_others_put thread_id st : keeps_others thread_id (put_checkpoint thread_id st).
Proof. intros w other Hne. cbn. by rewrite lookup_insert_ne. Qed.

Lemma keeps_others_run_node thread_id n st : keeps_others thread_id (run_node n st).
Proof.
  unfold run_node. apply keeps_others_bind; [done|]. intros _.
  apply keeps_others_bind; [|intros; apply keeps_others_apply_update].
  destruct n; cbn [node_function]; unfold call_model, summarize_conversation;
    (apply keeps_others_bind; [apply keeps_others_model_invoke|]);
    intros r; apply keeps_others_ret.
Qed.

Lemma keeps_others_run_from thread_id fuel : forall n st,
  keeps_others thread_id (run_from fuel thread_id n st).
Proof.
  induction fuel as [|fuel IH]; intros n st; [apply keeps_others_raise|].
  rewrite run_from_unfold.
  apply keeps_others_bind; [apply keeps_others_run_node|]. intros st'.
  apply keeps_others_bind; [apply keeps_others_put|]. intros _.
  apply keeps_others_bind.
  - destruct n; cbn [next_node]; [|apply keeps_others_ret].
    apply keeps_others_bind; [done|]. intros _. apply keeps_others_ret.
  - intros [n'|]; [apply IH | apply keeps_others_ret].
Qed.

Lemma keeps_others_graph_invoke thread_id input :
  keeps_others thread_id (graph_invoke input (Some thread_id)).
Proof.
  unfold graph_invoke.
  apply keeps_others_bind; [done|]. intros saved.
  apply keeps_others_bind.
  { destruct (convert_to_messages input); [apply keeps_others_raise | apply keeps_others_ret]. }
  intros new. apply keeps_others_bind; [apply keeps_others_apply_update|]. intros st.
  apply keeps_others_bind; [apply keeps_others_put|]. intros _.
  apply keeps_others_run_from.
Qed.

Lemma graph_invoke_others input cfg w other :
  cfg ≠ Some other ->
  checkpoints (graph_invoke input cfg w).1 !! other = checkpoints w !! other.
Proof.
  intros Hne. destruct cfg as [thread_id|]; [|done].
  apply keeps_others_graph_invoke. congruence.
Qed.

(** X6. A request on one thread never changes what is stored for
    another: after [invoke] and after [stream], whatever they were given
    and however they ended, every other thread has the state it had. *)
Theorem request_leaves_other_threads req w other :
  config req ≠ Some other ->
  checkpoints (invoke req w).1 !! other = checkpoints w !! other ∧
  checkpoints (stream req w).1 !! other = checkpoints w !! other.
Proof.
  intros Hne.
  pose proof (graph_invoke_others (input_messages req) (config req) w other Hne) as Hg.
  split.
  - rewrite invoke_unfold.
    by destruct (graph_invoke (input_messages req) (config req) w) as [w' [e|resp]].
  - unfold stream.
    destruct (last_input_content (input_messages req)) as [e|c]; [done|].
    erewrite bind_ok by reflexivity. unfold bind.
    by destruct (graph_invoke (input_messages req) (config req) w) as [w' [e|resp]].
Qed.

(** *** What a request returns is what it stored *)

Lemma run_from_stores thread_id fuel : forall n st w w' r,
  run_from fuel thread_id n st w = (w', inr r) ->
  checkpoints w' !! thread_id = Some r.
Proof.
  induction fuel as [|fuel IH]; intros n st w w' r; [done|].
  rewrite run_from_unfold.
  destruct (run_node n st w) as [w1 [e|st1]] eqn:E1.
  { by rewrite (bind_err _ _ _ _ _ E1). }
  rewrite (bind_ok _ _ _ _ _ E1). erewrite bind_ok by reflexivity.
  destruct n; cbn [next_node].
  - erewrite bind_ok by reflexivity.
    destruct (should_continue st1) as [n'|].
    + apply IH.
    + intros [= <- <-]. cbn. by rewrite lookup_insert_eq.
  - erewrite bind_ok by reflexivity.
    intros [= <- <-]. cbn. by rewrite lookup_insert_eq.
Qed.

Lemma graph_invoke_stores input thread_id w w' r :
  graph_invoke input (Some thread_id) w = (w', inr r) ->
  checkpoints w' !! thread_id = Some r.
Proof.
  unfold graph_invoke. erewrite bind_ok by reflexivity.
  destruct (convert_to_messages input) as [e|new].
  { by erewrite bind_err by reflexivity. }
  erewrite bind_ok by reflexivity.
  destruct (apply_update (default empty_state (checkpoints w !! thread_id))
              {| u_messages := Some new; u_summary := None |} w) as [w1 [e|st1]] eqn:E1.
  { by rewrite (bind_err _ _ _ _ _ E1). }
  rewrite (bind_ok _ _ _ _ _ E1). erewrite bind_ok by reflexivity.
  apply run_from_stores.
Qed.

(** X7. When [invoke] answers normally, the messages in its answer are
    the thread's stored history: a [get_thread_state] right after it
    returns the same list, and reads without changing anything. The
    summary is not part of [invoke]'s answer, whose [state] field is
    always empty. *)
Theorem invoke_then_get_thread_state req thread_id w r :
  config req = Some thread_id ->
  (invoke req w).2 = inr r ->
  let w' := (invoke req w).1 in
  get_thread_state thread_id w' =
    (w', {| ts_messages := r_messages r;
            ts_summary := default "" (checkpoints w' !! thread_id ≫= summary) |}) ∧
  r_state r = ∅.
Proof.
  intros Hcfg. rewrite invoke_unfold, Hcfg.
  destruct (graph_invoke (input_messages req) (Some thread_id) w) as [w' [e|resp]] eqn:E;
    [done|].
  intros [= <-]. cbn.
  unfold get_thread_state, graph_get_state_values, get_checkpoint.
  by rewrite (graph_invoke_stores _ _ _ _ _ E).
Qed.


(** X9. No turn calls the model more than twice. A turn that returns
    called it once or twice, and twice exactly when it ran the
    compaction. *)
Theorem turn_calls_model_at_most_twice input cfg w :
  let out := graph_invoke input cfg w in
  let evs := turn_events w out.1 in
  length (List.filter is_model_call evs) <= 2 ∧
  ((exists st, out.2 = inr st) ->
     1 <= length (List.filter is_model_call evs) ∧
     (length (List.filter is_model_call evs) = 2 <->
      length (List.filter is_compaction evs) = 1)).
Proof.
  cbn zeta. destruct (graph_invoke_trace input cfg w) as (evs & Htr & Hshape).
  cbn zeta in Htr. rewrite (turn_events_app _ _ _ Htr).
  destruct Hshape as [[[->|[inp ->]] [e He]]|[[inp ->]|(inp & inp' & ->)]]; cbn.
  - split; [lia|]. intros [st Hst]. congruence.
  - split; [lia|]. intros [st Hst]. congruence.
  - split; [lia|]. intros _. split; [lia|]. split; intros; lia.
  - split; [lia|]. intros _. split; [lia|]. done.
Qed.

(** *** The history that turns leave behind *)




Lemma wf_world_stream req w : wf_world w -> wf_world (stream req w).1.
Proof.
  intros Hwf. unfold stream.
  destruct (last_input_content (input_messages req)) as [e|c]; [done|].
  erewrite bind_ok by reflexivity. unfold bind.
  pose proof (wf_world_graph_invoke (input_messages req) (config req) w Hwf) as H.
  by destruct (graph_invoke (input_messages req) (config req) w) as [w' [e|resp]].
Qed.

(** X12. Every endpoint keeps the store well formed: if in every stored
    list the identifiers are distinct and were generated earlier, the
    same holds after [invoke], [stream], [get_thread_state] and
    [delete_thread], whatever they were given and however they ended. *)
Theorem endpoints_keep_store_well_formed req thread_id memory w :
  wf_world w ->
  wf_world (invoke req w).1 ∧
  wf_world (stream req w).1 ∧
  wf_world (get_thread_state thread_id w).1 ∧
  wf_world (delete_thread memory thread_id w).1.
Proof.
  intros Hwf. split; [by apply wf_world_invoke|].
  split; [by apply wf_world_stream|]. split; [done|].
  by destruct memory.
Qed.

(** *** [stream] *)

(** X13. The generator of [stream] never raises and always yields two
    chunks, one event: either [message] with the node name
    [conversation], the messages and an empty state, or [error] with the
    error's text. On an empty message list it is the error [list index
    out of range], and then nothing at all has happened: no turn, no
    call of the model, no change to the store. *)
Theorem stream_yields_one_event req w :
  (exists name data,
     (stream req w).2 = [EventLine name; DataLine data] ∧
     ((name = "message" ∧ exists msgs, data = DataMessage "conversation" msgs ∅) ∨
      (name = "error" ∧ exists text, data = DataError text))) ∧
  (input_messages req = [] ->
   stream req w = (w, [EventLine "error"; DataLine (DataError "list index out of range")])).
Proof.
  split.
  - unfold stream.
    destruct (last_input_content (input_messages req)) as [e|c].
    { erewrite bind_err by reflexivity. cbn. do 2 eexists. split; [done|]. right. eauto. }
    erewrite bind_ok by reflexivity. unfold bind.
    destruct (graph_invoke (input_messages req) (config req) w) as [w' [e|resp]]; cbn.
    + do 2 eexists. split; [done|]. right. eauto.
    + do 2 eexists. split; [done|]. left. eauto.
  - intros Hnil. unfold stream. by rewrite Hnil.
Qed.

(** X14. On a message list that is not empty, [stream] does what
    [invoke] does: it leaves the same world, and its event carries the
    messages and state of [invoke]'s answer, or, when [invoke] answers
    with a 500, the same error text. *)
Theorem stream_mirrors_invoke req w :
  input_messages req ≠ [] ->
  (stream req w).1 = (invoke req w).1 ∧
  (stream req w).2 =
    match (invoke req w).2 with
    | inr r => [EventLine "message";
                DataLine (DataMessage "conversation" (r_messages r) (r_state r))]
    | inl h => [EventLine "error"; DataLine (DataError (detail h))]
    end.
Proof.
  intros Hne. rewrite (stream_unfold _ _ Hne).
  by destruct (invoke req w) as [w' [h|r]].
Qed.

(** *** Turn after turn *)

(** One turn of the frontend against a model that answers: the history
    grows by two, and is cut back to two when that makes more than six. *)
Lemma frontend_turn_length thread_id c w :
  (forall msgs o, exists o' text, generate msgs o = (o', inr text)) ->
  wf_world w ->
  length (stored_messages thread_id (invoke (human_turn thread_id c) w).1) =
    next_length (length (stored_messages thread_id w)).
Proof.
  intros Htotal Hwf. rewrite invoke_unfold. cbn [human_turn input_messages config].
  rewrite (graph_invoke_spec w thread_id [mkMessage "human" c]
             [mkMsg HumanMessage c None] Hwf eq_refl). cbn zeta.
  unfold stored_messages, next_length.
  set (st0 := default empty_state (checkpoints w !! thread_id)).
  destruct (Htotal (call_model_input
                      {| messages := messages st0 ++ stamp (uuid_next w) [mkMsg HumanMessage c None];
                         summary := summary st0 |}) (model_state w)) as (o1 & text & ->).
  cbn [messages summary]. rewrite !length_app. cbn [length stamp].
  replace (length (messages st0) + 1 + 1) with (length (messages st0) + 2) by lia.
  destruct (6 <? length (messages st0) + 2)%nat eqn:Hsix.
  - apply Nat.ltb_lt in Hsix.
    match goal with |- context [generate ?i o1] => destruct (Htotal i o1) as (o2 & s & ->) end.
    cbn. rewrite lookup_insert_eq. cbn. unfold last_two.
    rewrite length_drop, !length_app. cbn. lia.
  - cbn. rewrite lookup_insert_eq. cbn. rewrite !length_app. cbn. lia.
Qed.

Lemma after_turns_length thread_id contents : forall w,
  (forall msgs o, exists o' text, generate msgs o = (o', inr text)) ->
  wf_world w ->
  length (stored_messages thread_id (after_turns thread_id contents w)) =
    Nat.iter (length contents) next_length (length (stored_messages thread_id w)).
Proof.
  induction contents as [|c contents IH]; intros w Htotal Hwf; [done|].
  cbn [after_turns foldl length]. rewrite Nat.iter_succ_r.
  rewrite <- (frontend_turn_length thread_id c w Htotal Hwf).
  apply (IH _ Htotal). by apply wf_world_invoke.
Qed.

Lemma next_length_cycle q :
  Nat.iter (3 * q + 1) next_length 0 = 2 ∧
  Nat.iter (3 * q + 2) next_length 0 = 4 ∧
  Nat.iter (3 * q + 3) next_length 0 = 6.
Proof.
  induction q as [|q (H1 & H2 & H3)]; [done|].
  replace (3 * S q + 1) with (S (3 * q + 3)) by lia.
  replace (3 * S q + 2) with (S (S (3 * q + 3))) by lia.
  replace (3 * S q + 3) with (S (S (S (3 * q + 3)))) by lia.
  rewrite !Nat.iter_succ, H3. done.
Qed.

(** X15. The history of a thread over the frontend's turns, with a
    model that always answers: starting from a thread with no messages,
    after [n] turns it holds 2, 4, 6, 2, 4, 6, ... messages, that is
    [2 * (1 + (n - 1) mod 3)]. So the compaction runs on the fourth turn
    and on every third turn after it, and never before. *)
Theorem history_length_after_turns thread_id contents w :
  (forall msgs o, exists o' text, generate msgs o = (o', inr text)) ->
  wf_world w ->
  stored_messages thread_id w = [] ->
  length (stored_messages thread_id (after_turns thread_id contents w)) =
    match length contents with
    | 0 => 0
    | S k => 2 * (1 + k mod 3)
    end.
Proof.
  intros Htotal Hwf Hempty.
  rewrite (after_turns_length _ _ _ Htotal Hwf), Hempty. cbn [length].
  destruct (length contents) as [|k]; [done|].
  pose proof (Nat.div_mod_eq k 3) as Hk.
  pose proof (Nat.mod_upper_bound k 3 ltac:(done)) as Hlt.
  destruct (next_length_cycle (k / 3)) as (H1 & H2 & H3).
  destruct (k mod 3) as [|[|[|r]]] eqn:Hr; [| | |lia].
  - replace (S k) with (3 * (k / 3) + 1) by lia. by rewrite H1.
  - replace (S k) with (3 * (k / 3) + 2) by lia. by rewrite H2.
  - replace (S k) with (3 * (k / 3) + 3) by lia. by rewrite H3.
Qed.

(** *** Reading a thread back *)





End Service.

(** ** The service at work *)

(** C1 at work: a first turn that carries six human messages ends with
    seven messages, and the compaction node runs. *)
Lemma compaction_iff_more_than_six_witness :
  let six := [mkMessage "human" "a"; mkMessage "human" "b"; mkMessage "human" "c";
              mkMessage "human" "d"; mkMessage "human" "e"; mkMessage "human" "f"] in
  let out := graph_invoke (fixed_model "ok") six (Some "t1") (initial_world tt) in
  EvNode summarize_conversation_node ∈ turn_events (initial_world tt) out.1.
Proof.
  intros six out.
  pose proof (compaction_iff_more_than_six (fixed_model "ok") (initial_world tt) "t1" six
                [mkMsg HumanMessage "a" None; mkMsg HumanMessage "b" None;
                 mkMsg HumanMessage "c" None; mkMsg HumanMessage "d" None;
                 mkMsg HumanMessage "e" None; mkMsg HumanMessage "f" None]
                tt "ok" (wf_world_initial tt) eq_refl eq_refl) as (_ & H & _).
  apply H. vm_compute. lia.
Defined.

(** A turn that ends with six messages leaves the summary alone. *)
Example third_turn_no_compaction :
  let w := after_turns (fixed_model "ok") "t1" ["hi"; "how are you"] (initial_world tt) in
  let out := invoke (fixed_model "ok") (human_turn "t1" "tell me a joke") w in
  length (messages (default empty_state (checkpoints out.1 !! "t1"))) = 6 ∧
  (get_thread_state "t1" out.1).2.(ts_summary) = "" ∧
  List.filter is_compaction (turn_events w out.1) = [].
Proof. vm_compute. done. Qed.

(** C2 at work: seven messages go in, the last two stay. *)
Lemma compaction_keeps_last_two_witness :
  let st := {| messages := stamp 0 [mkMsg HumanMessage "a" None; mkMsg AIMessage "b" None;
                                    mkMsg HumanMessage "c" None; mkMsg AIMessage "d" None;
                                    mkMsg HumanMessage "e" None; mkMsg AIMessage "f" None;
                                    mkMsg HumanMessage "g" None];
               summary := None |} in
  let w := mkWorld ∅ 7 tt [] in
  exists w' st',
    run_node (fixed_model "S") summarize_conversation_node st w = (w', inr st') ∧
    messages st' = [mkMsg AIMessage "f" (Some 5); mkMsg HumanMessage "g" (Some 6)].
Proof.
  intros st w.
  destruct (compaction_keeps_last_two (fixed_model "S") st w tt "S")
    as (w' & st' & Hrun & Hmsgs & _).
  - apply (stamp_wf 0).
  - eapply wf_messages_ids, (stamp_wf 0).
  - reflexivity.
  - exists w', st'. split; [exact Hrun | exact Hmsgs].
Defined.

(** C3 at work: a state that already has a summary is compacted; the
    field then holds the model's new text and nothing of the old one. *)
Lemma compaction_replaces_summary_witness :
  let st := {| messages := stamp 0 [mkMsg HumanMessage "a" None; mkMsg AIMessage "b" None;
                                    mkMsg HumanMessage "c" None];
               summary := Some "marker-0" |} in
  let w := mkWorld ∅ 3 1 [] in
  exists w' st',
    run_node marker_model summarize_conversation_node st w = (w', inr st') ∧
    summary st' = Some "marker-1".
Proof.
  intros st w.
  destruct (compaction_replaces_summary marker_model st w 2 "marker-1")
    as (w' & st' & Hrun & Hsum).
  - apply (stamp_wf 0).
  - eapply wf_messages_ids, (stamp_wf 0).
  - reflexivity.
  - exists w', st'. split; [exact Hrun | exact Hsum].
Defined.

(** Seven turns against a model that marks each of its calls: the
    compactions of the fourth and of the seventh turn are its calls 4 and
    8, and only the later marker is in the summary. *)
Example summary_is_latest_marker :
  let w4 := after_turns marker_model "t1" ["a"; "b"; "c"; "d"] (initial_world 0) in
  let w7 := after_turns marker_model "t1" ["e"; "f"; "g"] w4 in
  (get_thread_state "t1" w4).2.(ts_summary) = "marker-4" ∧
  (get_thread_state "t1" w7).2.(ts_summary) = "marker-8" ∧
  length (get_thread_state "t1" w7).2.(ts_messages) = 2.
Proof. vm_compute. done. Qed.

(** C4 fails on the code: the first turn of a thread, with a model that
    fails. The request is answered with a 500, and the thread, which had
    no state, now has the human message stored without a reply. *)
Lemma failed_turn_keeps_human_message :
  let w := initial_world tt in
  let out := invoke failing_model (human_turn "t1" "hi") w in
  out.2 = inl {| status_code := 500; detail := "model unavailable" |} ∧
  checkpoints w !! "t1" = None ∧
  checkpoints out.1 !! "t1" =
    Some {| messages := [mkMsg HumanMessage "hi" (Some 0)]; summary := None |} ∧
  checkpoints out.1 !! "t1" ≠ checkpoints w !! "t1" ∧
  (get_thread_state "t1" out.1).2 =
    {| ts_messages := [{| s_type := PyStr "human"; s_content := "hi" |}];
       ts_summary := "" |}.
Proof. vm_compute. repeat split; done. Qed.

(** C4 as amended, at work on the same turn. *)
Lemma model_failure_keeps_last_checkpoint_witness :
  let w := initial_world tt in
  let out := invoke failing_model (human_turn "t1" "hi") w in
  out.2 = inl {| status_code := 500; detail := "model unavailable" |} ∧
  checkpoints out.1 =
    <["t1" := {| messages := [mkMsg HumanMessage "hi" (Some 0)]; summary := None |}]>
      (checkpoints w).
Proof.
  exact (model_failure_keeps_last_checkpoint failing_model (initial_world tt) "t1"
           [mkMessage "human" "hi"] [mkMsg HumanMessage "hi" None]
           (wf_world_initial tt) eq_refl).
Defined.

(** The other place a turn can fail: the model answers the reply call
    of the fourth turn and fails on the compaction's call. The stored
    thread then holds all eight messages and no summary. *)
Example failed_compaction_keeps_reply :
  let w := after_turns limited_model "t1" ["a"; "b"; "c"] (initial_world 4) in
  let out := invoke limited_model (human_turn "t1" "d") w in
  out.2 = inl {| status_code := 500; detail := "model unavailable" |} ∧
  (get_thread_state "t1" out.1).2.(ts_summary) = "" ∧
  length (get_thread_state "t1" out.1).2.(ts_messages) = 8.
Proof. vm_compute. done. Qed.

(** C5 at work: a thread with a summary and one new human message. *)
Lemma call_model_input_and_store_witness :
  let st := {| messages := [mkMsg HumanMessage "and then?" (Some 0)];
               summary := Some "they talked about tea" |} in
  let w := mkWorld ∅ 1 tt [] in
  call_model_input st =
    [mkMsg SystemMessage "Summary of conversation earlier: they talked about tea" None;
     mkMsg HumanMessage "and then?" (Some 0)] ∧
  exists w' st',
    run_node (fixed_model "ok") conversation st w = (w', inr st') ∧
    messages st' = [mkMsg HumanMessage "and then?" (Some 0);
                    mkMsg AIMessage "ok" (Some 1)].
Proof.
  intros st w.
  destruct (call_model_input_and_store (fixed_model "ok") st w tt "ok")
    as (Hin & w' & st' & Hrun & _ & Hmsgs & _).
  - apply (stamp_wf 0 [mkMsg HumanMessage "and then?" None]).
  - reflexivity.
  - split; [exact Hin|]. exists w', st'. split; [exact Hrun | exact Hmsgs].
Defined.

(** C7 at work: a thread nobody has written to. *)
Lemma get_thread_state_unknown_witness :
  get_thread_state "never-seen" (initial_world tt) =
    (initial_world tt, {| ts_messages := []; ts_summary := "" |}).
Proof. exact (get_thread_state_unknown "never-seen" (initial_world tt) eq_refl). Defined.

(** C8 on the code: a thread is written by one turn and then deleted
    through the endpoint, with the saver in place. The endpoint answers
    500 and [get_thread_state] still returns the thread's two messages. *)
Theorem delete_thread_does_not_erase :
  let w := after_turns (fixed_model "ok") "t1" ["hi"] (initial_world tt) in
  let out := delete_thread MemorySaverObject "t1" w in
  out.2 = inl {| status_code := 500;
                 detail := "'InMemorySaver' object has no attribute 'delete_state'" |} ∧
  (get_thread_state "t1" out.1).2 =
    {| ts_messages := [{| s_type := PyStr "human"; s_content := "hi" |};
                       {| s_type := PyStr "ai"; s_content := "ok" |}];
       ts_summary := "" |}.
Proof. vm_compute. done. Qed.

(** C9 on the code: the same request, with an empty message list, on a
    thread that has one turn behind it. [invoke] runs the turn and
    answers with three messages; [stream] stops at its first [print],
    runs no turn, and yields an error event. *)
Theorem stream_differs_on_empty_input :
  let w := after_turns (fixed_model "ok") "t1" ["hi"] (initial_world tt) in
  let req := {| input_messages := []; config := Some "t1" |} in
  (invoke (fixed_model "ok") req w).2 =
    inr {| r_messages := [{| s_type := PyStr "human"; s_content := "hi" |};
                          {| s_type := PyStr "ai"; s_content := "ok" |};
                          {| s_type := PyStr "ai"; s_content := "ok" |}];
           r_state := ∅ |} ∧
  stream (fixed_model "ok") req w =
    (w, [EventLine "error"; DataLine (DataError "list index out of range")]).
Proof. vm_compute. done. Qed.

(** C10 fails on the code: a mapping whose [type] is [system] is
    serialized with type [system]. *)
Lemma serialize_message_system_dict :
  serialize_message (AnyDict {[ "type" := PyStr "system"; "content" := PyStr "x" ]}) =
    {| s_type := PyStr "system"; s_content := "x" |}.
Proof. vm_compute. done. Qed.

(** ** More of the code at work *)

(** X2 at work: server.py in [/srv/Streamlit/microservices/backend], on a
    file system where every path exists. *)
Lemma locate_graph_never_sibling_witness :
  let here := ["srv"; "Streamlit"; "microservices"; "backend"] in
  locate_graph (fun _ => true) here = Found ["srv"; "Streamlit"; "backend"; "graph.py"] ∧
  ["srv"; "Streamlit"; "backend"; "graph.py"] ≠ here ++ ["graph.py"].
Proof.
  intros here. split; [reflexivity|].
  apply (locate_graph_never_sibling (fun _ => true) here); [cbn; lia | reflexivity].
Defined.

(** X6 at work: a turn on [t1] next to a thread [t2] that has a turn
    behind it. *)
Lemma request_leaves_other_threads_witness :
  let w := after_turns (fixed_model "ok") "t2" ["hello"] (initial_world tt) in
  checkpoints (invoke (fixed_model "ok") (human_turn "t1" "hi") w).1 !! "t2" =
    checkpoints w !! "t2" ∧
  checkpoints (stream (fixed_model "ok") (human_turn "t1" "hi") w).1 !! "t2" =
    checkpoints w !! "t2".
Proof.
  intros w.
  apply (request_leaves_other_threads (fixed_model "ok") (human_turn "t1" "hi") w "t2").
  discriminate.
Defined.

(** X7 at work: the first turn of a thread, then the read. *)
Lemma invoke_then_get_thread_state_witness :
  let w' := (invoke (fixed_model "ok") (human_turn "t1" "hi") (initial_world tt)).1 in
  (get_thread_state "t1" w').2 =
    {| ts_messages := [{| s_type := PyStr "human"; s_content := "hi" |};
                       {| s_type := PyStr "ai"; s_content := "ok" |}];
       ts_summary := "" |}.
Proof.
  intros w'.
  destruct (invoke_then_get_thread_state (fixed_model "ok") (human_turn "t1" "hi") "t1"
              (initial_world tt)
              {| r_messages := [{| s_type := PyStr "human"; s_content := "hi" |};
                                {| s_type := PyStr "ai"; s_content := "ok" |}];
                 r_state := ∅ |} eq_refl eq_refl) as [H _].
  fold w' in H. rewrite H. reflexivity.
Defined.




(** X12 at work: the four endpoints on the world before any request. *)
Lemma endpoints_keep_store_well_formed_witness :
  wf_world (invoke (fixed_model "ok") (human_turn "t1" "hi") (initial_world tt)).1 ∧
  wf_world (stream (fixed_model "ok") (human_turn "t1" "hi") (initial_world tt)).1 ∧
  wf_world (get_thread_state "t1" (initial_world tt)).1 ∧
  wf_world (delete_thread MemorySaverObject "t1" (initial_world tt)).1.
Proof.
  apply (endpoints_keep_store_well_formed (fixed_model "ok")), wf_world_initial.
Defined.

(** X14 at work: the first turn of a thread through [stream]. *)
Lemma stream_mirrors_invoke_witness :
  let req := human_turn "t1" "hi" in
  (stream (fixed_model "ok") req (initial_world tt)).1 =
    (invoke (fixed_model "ok") req (initial_world tt)).1 ∧
  (stream (fixed_model "ok") req (initial_world tt)).2 =
    [EventLine "message";
     DataLine (DataMessage "conversation"
                 [{| s_type := PyStr "human"; s_content := "hi" |};
                  {| s_type := PyStr "ai"; s_content := "ok" |}] ∅)].
Proof.
  intros req.
  destruct (stream_mirrors_invoke (fixed_model "ok") req (initial_world tt)) as [H1 H2];
    [discriminate|].
  split; [exact H1|]. rewrite H2. reflexivity.
Defined.

(** X15 at work: seven turns leave two messages. *)
Lemma history_length_after_turns_witness :
  length (stored_messages "t1"
            (after_turns (fixed_model "ok") "t1" ["a"; "b"; "c"; "d"; "e"; "f"; "g"]
               (initial_world tt))) = 2.
Proof.
  exact (history_length_after_turns (fixed_model "ok") "t1"
           ["a"; "b"; "c"; "d"; "e"; "f"; "g"] (initial_world tt)
           (fun _ o => ex_intro _ o (ex_intro _ "ok" eq_refl))
           (wf_world_initial tt) eq_refl).
Defined.

